(** * Night Whispers: the timeline controller, the renderer and the audio
    director of [src/app/page.tsx]

    The page is a single React component, [Home].  This file embeds it as
    follows.

    - Numbers.  JavaScript numbers are read as exact rationals ([Q]), so
      that the arithmetic of the source ([Math.min], [Math.abs],
      [Math.max], products and quotients of decimal literals) keeps its
      meaning and every definition still computes.  Equality of such
      numbers is [Qeq], written [==].  [Math.sin] and [Math.cos] are
      parameters of the painted frame, [Math.random] a sequence of samples
      in [0, 1).

    - State.  The [useState] cells ([View]), the [useRef] cells ([Refs])
      and what the component has pending in the window ([Window]: timers,
      animation-frame requests, audio contexts) make up [State].  A trace
      of ghost observations records what a run has published and which
      timers have fired.

    - Events.  The component is driven by an event loop in virtual time:
      an event carries the time at which it happens; before it is handled
      the timers due by then fire, the earliest first.  A handler runs to
      its end, together with the React effects its state changes trigger,
      before the next event: [beginStory], which awaits [startAudio], is
      one step, and its [setTimeout]s and the [performance.now()] of the
      effect on [runKey] read the same time.  Unmounting is a step of its
      own, [unmount], after which the component handles nothing.

    - The platform.  A number given where the platform takes an
      [unsigned long] (the length of an audio buffer, the size of the
      canvas) is truncated; [Math.PI] is the double nearest to pi. *)

From Stdlib Require Import QArith Qminmax Qabs Qround Lqa ZArith List Bool Lia
  String.
Import ListNotations.
Open Scope Q_scope.

(** ** Numbers *)

(** [a < b] as the source tests it. *)
Definition Qltb (a b : Q) : bool := negb (Qle_bool b a).

(** [x || 1] on a number: a falsy number (zero) is replaced by one. *)
Definition orOne (x : Q) : Q := if Qeq_bool x 0 then 1 else x.

(** ** Phases and the static timeline (lines 5-31, 125) *)

Definition STORY_DURATION : Q := 30000.

Inductive Phase : Set :=
  | idle | intro | hint | manifest | escalate | scare | aftermath.

Definition Phase_eqb (a b : Phase) : bool :=
  match a, b with
  | idle, idle | intro, intro | hint, hint | manifest, manifest
  | escalate, escalate | scare, scare | aftermath, aftermath => true
  | _, _ => false
  end.

(** One entry [{ at, phase }] of the timeline. *)
Record Entry : Set := mkEntry { at_ : Q; phase_ : Phase }.

Definition PHASE_SEQUENCE : list Entry :=
  [ mkEntry 0 intro;
    mkEntry 6800 hint;
    mkEntry 13600 manifest;
    mkEntry 19800 escalate;
    mkEntry 24400 scare;
    mkEntry STORY_DURATION aftermath ].

Definition JUMP_CUT_MOMENTS : list Q := [6200; 12800; 20750; 24400].

(** The position of a phase in the declared order of the type [Phase]. *)
Definition phase_rank (p : Phase) : nat :=
  match p with
  | idle => 0 | intro => 1 | hint => 2 | manifest => 3
  | escalate => 4 | scare => 5 | aftermath => 6
  end.

(** ** The renderer: what [draw] paints (lines 209-424) *)

(** [clamped] and [progressValue] (lines 210-212). *)
Definition clampedOf (elapsed : Q) : Q := Qmin elapsed STORY_DURATION.
Definition progressOf (elapsed : Q) : Q := clampedOf elapsed / STORY_DURATION.

(** Camera zoom (lines 226-233). *)
Definition zoomBase (progressValue : Q) : Q := 1.12 + progressValue * 0.45.

Definition inWindow (clamped moment : Q) : bool :=
  Qltb (Qabs (clamped - moment)) 220.

Definition boostAt (clamped moment : Q) : Q :=
  0.3 + (1 - Qabs (clamped - moment) / 220) * 0.35.

(** The body of the [for ... of] loop over the jump cuts. *)
Definition boostStep (clamped zoomBoost moment : Q) : Q :=
  if inWindow clamped moment then Qmax zoomBoost (boostAt clamped moment)
  else zoomBoost.

Definition zoomBoostOver (moments : list Q) (clamped : Q) : Q :=
  fold_left (boostStep clamped) moments 0.

Definition zoomBoost (clamped : Q) : Q := zoomBoostOver JUMP_CUT_MOMENTS clamped.

Definition zoomOf (elapsed : Q) : Q :=
  zoomBase (progressOf elapsed) + zoomBoost (clampedOf elapsed).

(** Camera shake amplitude (lines 235-242). *)
Definition shakeFactor (phaseName : Phase) : Q :=
  match phaseName with
  | scare => 12
  | escalate => 6
  | manifest => 3.5
  | _ => 1.5
  end.

(** Amplitude, in degrees, of the rocking of the chair (line 274). *)
Definition rockAmplitude (phaseName : Phase) : Q :=
  match phaseName with
  | scare => 14
  | escalate => 9
  | _ => 6
  end.

(** The drawing on the wall (lines 343, 376-381). *)
Definition wallAlpha (progressValue : Q) : Q := 0.12 + progressValue * 0.25.

Definition eyeStrokeStyle (phaseName : Phase) : string :=
  match phaseName with
  | hint | manifest | escalate | scare => "rgba(211, 43, 55, 0.75)"
  | _ => "rgba(211, 43, 55, 0.35)"
  end%string.

Definition eyeLineWidth (phaseName : Phase) : Q :=
  match phaseName with scare => 7 | _ => 5 end.

Definition eyeOffset (phaseName : Phase) : Q :=
  match phaseName with scare => 12 | escalate => 9 | _ => 6 end.

(** *** Glitch bars (lines 393-407) *)

(** [Math.random()] is the only effect of the renderer besides the canvas.
    A random source is the sequence of the samples still to come; a draw
    takes the first and leaves the rest. *)
Definition Rng : Type := nat -> Q.

Definition random (g : Rng) : Q * Rng := (g O, fun n => g (S n)).

(** What the platform promises of [Math.random()]: samples in [0, 1). *)
Definition unit_samples (g : Rng) : Prop := forall n, 0 <= g n /\ g n < 1.

Definition glitchActive (phaseName : Phase) : bool :=
  match phaseName with
  | manifest | escalate | scare => true
  | _ => false
  end.

Definition glitchStrength (phaseName : Phase) : Q :=
  match phaseName with scare => 0.48 | escalate => 0.3 | _ => 0.18 end.

Definition glitchCount (phaseName : Phase) : nat :=
  match phaseName with scare => 28 | _ => 18 end.

(** One [fillRect] of the loop, with the alpha of its fill style. *)
Record Bar : Set := mkBar {
  barAlpha : Q;
  barX : Q;
  barY : Q;
  barWidth : Q;
  barHeight : Q
}.

(** The body of the loop, in the order in which it samples. *)
Definition glitchBar (strength width height : Q) (g : Rng) : Bar * Rng :=
  let (r, g) := random g in
  let alpha := r * strength in
  let (r, g) := random g in
  let barWidth := r * width * 0.12 in
  let (r, g) := random g in
  let barHeight := 3 + r * 3 in
  let (r, g) := random g in
  let barX := r * (width - barWidth) in
  let (r, g) := random g in
  let barY := r * height in
  (mkBar alpha barX barY barWidth barHeight, g).

Fixpoint glitchLoop (bars : nat) (strength width height : Q) (g : Rng)
  : list Bar * Rng :=
  match bars with
  | O => ([], g)
  | S n =>
      let (b, g) := glitchBar strength width height g in
      let (bs, g) := glitchLoop n strength width height g in
      (b :: bs, g)
  end.

Definition glitchBars (phaseName : Phase) (width height : Q) (g : Rng)
  : list Bar * Rng :=
  if glitchActive phaseName
  then glitchLoop (glitchCount phaseName) (glitchStrength phaseName)
         width height g
  else ([], g).

(** The pair of eyes of the climax (lines 409-422): their [globalAlpha],
    when they are drawn. *)
Definition climaxEyes (phaseName : Phase) : option Q :=
  match phaseName with
  | scare => Some 1
  | aftermath => Some 0.85
  | _ => None
  end.

(** The canvas element as [draw] reads it: its backing size and the device
    pixel ratio of the window. *)
Record Canvas : Set := mkCanvas {
  canvas_width : Q;
  canvas_height : Q;
  devicePixelRatio : Q
}.

Definition logicalWidth (cv : Canvas) : Q :=
  canvas_width cv / orOne (devicePixelRatio cv).
Definition logicalHeight (cv : Canvas) : Q :=
  canvas_height cv / orOne (devicePixelRatio cv).

(** One painted frame: the parameters of every drawing call of [draw] that
    depends on the time, the phase or the random source. *)
Record Painted : Type := mkPainted {
  p_zoom : Q;
  p_xShake : Q;
  p_yShake : Q;
  p_rock : Q;
  p_wallAlpha : Q;
  p_eyeStroke : string;
  p_eyeLineWidth : Q;
  p_eyeOffset : Q;
  p_bars : list Bar;
  p_climaxEyes : option Q
}.

Section Paint.

(** [Math.sin] and [Math.cos] are not rational functions; the frame is
    painted relative to them. *)
Variables sin cos : Q -> Q.

Definition paint (cv : Canvas) (now elapsed : Q) (phaseName : Phase) (g : Rng)
  : Painted :=
  let width := logicalWidth cv in
  let height := logicalHeight cv in
  let progressValue := progressOf elapsed in
  mkPainted
    (zoomOf elapsed)
    (sin (now * 0.012) * shakeFactor phaseName)
    (cos (now * 0.009) * shakeFactor phaseName * 0.6)
    (sin (now * 0.0025) * rockAmplitude phaseName)
    (wallAlpha progressValue)
    (eyeStrokeStyle phaseName)
    (eyeLineWidth phaseName)
    (eyeOffset phaseName)
    (fst (glitchBars phaseName width height g))
    (climaxEyes phaseName).

(** The frame [draw] paints at [now] when the run started at [startTime]
    and [phaseRef] holds [phaseName] (lines 210, 224). *)
Definition paintAt (cv : Canvas) (now startTime : Q) (phaseName : Phase)
    (g : Rng) : Painted :=
  paint cv now (now - startTime) phaseName g.

End Paint.

(** ** The audio director: what [startAudio] schedules (lines 459-567) *)

(** An automation event of an [AudioParam]; times are readings of the clock
    of the audio context, in seconds. *)
Inductive Automation : Set :=
  | SetValueAtTime (value time : Q)
  | LinearRampToValueAtTime (value endTime : Q)
  | ExponentialRampToValueAtTime (value endTime : Q).

(** A parameter: the value assigned to [.value] when the node was set up,
    the clock reading at that moment, and the events scheduled since, in the
    order of the calls. *)
Record AudioParam : Set := mkParam {
  param_value : Q;
  param_setAt : Q;
  param_events : list Automation
}.

(** A source node with its scheduled start and, when one was scheduled, its
    stop. *)
Record Source : Set := mkSource {
  src_start : Q;
  src_stop : option Q;
  src_loop : bool
}.

(** [scheduleCreak(start)] (lines 493-515). *)
Record Creak : Set := mkCreak {
  creak_frequency : AudioParam;
  creak_gain : AudioParam;
  creak_osc : Source
}.

Definition scheduleCreak (currentTime start : Q) : Creak :=
  let startTime := currentTime + start in
  mkCreak
    (mkParam 440 currentTime
       [SetValueAtTime 160 startTime;
        ExponentialRampToValueAtTime 38 (startTime + 1.3)])
    (mkParam 0 currentTime
       [SetValueAtTime 0.0001 startTime;
        ExponentialRampToValueAtTime 0.18 (startTime + 0.25);
        ExponentialRampToValueAtTime 0.0001 (startTime + 1.45)])
    (mkSource startTime (Some (startTime + 1.6)) false).

(** Everything one call of [startAudio] builds on its fresh context. *)
Record AudioGraph : Set := mkGraph {
  masterGain : Q;
  ambientGain : AudioParam;
  ambientSource : Source;
  ambientPlaybackRate : Q;
  creaks : list Creak;
  scareGain : AudioParam;
  scareNoise : Source;
  boomFrequency : AudioParam;
  boomGain : AudioParam;
  boomOsc : Source
}.

Definition buildGraph (currentTime : Q) : AudioGraph :=
  let boomStart := currentTime + 24.5 in
  mkGraph
    0.8
    (mkParam 0.0001 currentTime
       [LinearRampToValueAtTime 0.05 (currentTime + 1);
        LinearRampToValueAtTime 0.12 (currentTime + 10);
        LinearRampToValueAtTime 0.2 (currentTime + 18);
        LinearRampToValueAtTime 0.32 (currentTime + 26)])
    (mkSource currentTime None true)
    0.32
    [scheduleCreak currentTime 5.8;
     scheduleCreak currentTime 11.4;
     scheduleCreak currentTime 17.6]
    (mkParam 0 currentTime
       [SetValueAtTime 0.0001 (currentTime + 24.6);
        ExponentialRampToValueAtTime 0.95 (currentTime + 24.82);
        ExponentialRampToValueAtTime 0.0001 (currentTime + 25.3)])
    (mkSource (currentTime + 24.6) None false)
    (mkParam 440 currentTime
       [SetValueAtTime 280 boomStart;
        ExponentialRampToValueAtTime 48 (boomStart + 0.6)])
    (mkParam 0 currentTime
       [SetValueAtTime 0.0001 boomStart;
        ExponentialRampToValueAtTime 0.8 (boomStart + 0.22);
        ExponentialRampToValueAtTime 0.0001 (boomStart + 0.7)])
    (mkSource boomStart (Some (boomStart + 0.9)) false).

(** The value the Web Audio API gives a parameter at time [t], from the
    value [v0] it holds at [t0] and the events still ahead: a linear ramp
    interpolates between the previous event and its own end, a set-value
    event steps, and after the last event the value stays.  Inside an
    exponential ramp the value is not rational, and none is given. *)
Fixpoint automate (t t0 v0 : Q) (events : list Automation) : option Q :=
  match events with
  | [] => Some v0
  | SetValueAtTime v1 t1 :: rest =>
      if Qltb t t1 then Some v0 else automate t t1 v1 rest
  | LinearRampToValueAtTime v1 t1 :: rest =>
      if Qltb t t1
      then Some (if Qle_bool t t0 then v0
                 else v0 + (v1 - v0) * ((t - t0) / (t1 - t0)))
      else automate t t1 v1 rest
  | ExponentialRampToValueAtTime v1 t1 :: rest =>
      if Qltb t t1
      then (if Qle_bool t t0 then Some v0 else None)
      else automate t t1 v1 rest
  end.

Definition paramAt (p : AudioParam) (t : Q) : option Q :=
  automate t (param_setAt p) (param_value p) (param_events p).

(** The targets and the offsets, from the start of the run, of the ramps of
    a parameter. *)
Definition rampTargets (p : AudioParam) : list Q :=
  map (fun e => match e with
                | SetValueAtTime v _ | LinearRampToValueAtTime v _
                | ExponentialRampToValueAtTime v _ => v
                end) (param_events p).

Definition rampOffsets (p : AudioParam) : list Q :=
  map (fun e => match e with
                | SetValueAtTime _ t | LinearRampToValueAtTime _ t
                | ExponentialRampToValueAtTime _ t => t - param_setAt p
                end) (param_events p).

Definition isLinearRamp (e : Automation) : bool :=
  match e with LinearRampToValueAtTime _ _ => true | _ => false end.

(** ** The component [Home]: its state, the window around it and its
    handlers (lines 148-165, 200-216, 426-441, 459-466, 553-600) *)

(** What a [setTimeout] of [beginStory] runs when it fires. *)
Inductive Callback : Set :=
  | SetPhase (nextPhase : Phase)      (* lines 582-585 *)
  | Finish.                           (* lines 589-591 *)

(** A pending timer of the window.  [timer_run] is a ghost: the run whose
    [beginStory] scheduled the timer. *)
Record Timer : Set := mkTimer {
  timer_id : nat;
  timer_due : Q;
  timer_cb : Callback;
  timer_run : nat
}.

(** A pending animation-frame request for [draw]; [frame_run] is a ghost:
    the run whose effect owns the closure. *)
Record FrameRequest : Set := mkFrame {
  frame_id : nat;
  frame_run : nat
}.

(** An audio context that was constructed, with what was scheduled on it. *)
Record AudioContext : Set := mkContext {
  ctx_id : nat;
  ctx_graph : AudioGraph;
  ctx_stopped : bool;     (* [stop()] of the audio state was called *)
  ctx_closed : bool       (* [context.close()] was called *)
}.

(** The [useState] cells. *)
Record View : Set := mkView {
  phase : Phase;
  started : bool;
  runKey : nat;
  progress : Q;
  isComplete : bool
}.

(** The [useRef] cells. *)
Record Refs : Set := mkRefs {
  startTimeRef : Q;
  animationRef : option nat;
  phaseRef : Phase;
  timeoutsRef : list nat;
  audioStateRef : option nat;
  lastProgressUpdate : Q
}.

(** The part of the platform the component talks to. *)
Record Window : Set := mkWindow {
  timers : list Timer;          (* pending, in the order of their creation *)
  frames : list FrameRequest;   (* requested for the next frame *)
  nextTimerId : nat;
  nextFrameId : nat;
  contexts : list AudioContext
}.

(** Ghost observations of the current run, newest first. *)
Inductive Obs : Set :=
  | Published (now value : Q)         (* [setProgress] of [draw] *)
  | Fired (t : Timer) (current : nat) (* a timer ran while [current] was the run *)
  | Completed (now : Q).              (* [draw] ended the frame loop *)

Record State : Set := mkState {
  view : View;
  refs : Refs;
  win : Window;
  canvasEl : option Canvas;     (* the canvas with its 2d context, if any *)
  trace : list Obs
}.

(** Field updates. *)
Definition with_view (f : View -> View) (s : State) : State :=
  mkState (f (view s)) (refs s) (win s) (canvasEl s) (trace s).
Definition with_refs (f : Refs -> Refs) (s : State) : State :=
  mkState (view s) (f (refs s)) (win s) (canvasEl s) (trace s).
Definition with_win (f : Window -> Window) (s : State) : State :=
  mkState (view s) (refs s) (f (win s)) (canvasEl s) (trace s).
Definition observe (o : Obs) (s : State) : State :=
  mkState (view s) (refs s) (win s) (canvasEl s) (o :: trace s).

Definition set_phase (p : Phase) (v : View) : View :=
  mkView p (started v) (runKey v) (progress v) (isComplete v).
Definition set_started (b : bool) (v : View) : View :=
  mkView (phase v) b (runKey v) (progress v) (isComplete v).
Definition set_runKey (n : nat) (v : View) : View :=
  mkView (phase v) (started v) n (progress v) (isComplete v).
Definition set_progress (x : Q) (v : View) : View :=
  mkView (phase v) (started v) (runKey v) x (isComplete v).
Definition set_isComplete (b : bool) (v : View) : View :=
  mkView (phase v) (started v) (runKey v) (progress v) b.

Definition set_startTimeRef (x : Q) (r : Refs) : Refs :=
  mkRefs x (animationRef r) (phaseRef r) (timeoutsRef r) (audioStateRef r)
    (lastProgressUpdate r).
Definition set_animationRef (a : option nat) (r : Refs) : Refs :=
  mkRefs (startTimeRef r) a (phaseRef r) (timeoutsRef r) (audioStateRef r)
    (lastProgressUpdate r).
Definition set_phaseRef (p : Phase) (r : Refs) : Refs :=
  mkRefs (startTimeRef r) (animationRef r) p (timeoutsRef r) (audioStateRef r)
    (lastProgressUpdate r).
Definition set_timeoutsRef (l : list nat) (r : Refs) : Refs :=
  mkRefs (startTimeRef r) (animationRef r) (phaseRef r) l (audioStateRef r)
    (lastProgressUpdate r).
Definition set_audioStateRef (a : option nat) (r : Refs) : Refs :=
  mkRefs (startTimeRef r) (animationRef r) (phaseRef r) (timeoutsRef r) a
    (lastProgressUpdate r).
Definition set_lastProgressUpdate (x : Q) (r : Refs) : Refs :=
  mkRefs (startTimeRef r) (animationRef r) (phaseRef r) (timeoutsRef r)
    (audioStateRef r) x.

Definition set_timers (l : list Timer) (w : Window) : Window :=
  mkWindow l (frames w) (nextTimerId w) (nextFrameId w) (contexts w).
Definition set_frames (l : list FrameRequest) (w : Window) : Window :=
  mkWindow (timers w) l (nextTimerId w) (nextFrameId w) (contexts w).
Definition set_contexts (l : list AudioContext) (w : Window) : Window :=
  mkWindow (timers w) (frames w) (nextTimerId w) (nextFrameId w) l.

(** *** The window's services *)

(** [window.setTimeout(cb, delay)] called at time [now]: the new timer goes
    behind the pending ones and its handle is returned. *)
Definition setTimeout (now : Q) (run : nat) (cb : Callback) (delay : Q)
    (w : Window) : nat * Window :=
  let id := nextTimerId w in
  (id, mkWindow (timers w ++ [mkTimer id (now + delay) cb run]) (frames w)
         (S id) (nextFrameId w) (contexts w)).

Definition clearTimeout (id : nat) (w : Window) : Window :=
  set_timers (filter (fun t => negb (Nat.eqb (timer_id t) id)) (timers w)) w.

Definition requestAnimationFrame (run : nat) (w : Window) : nat * Window :=
  let id := nextFrameId w in
  (id, mkWindow (timers w) (frames w ++ [mkFrame id run]) (nextTimerId w)
         (S id) (contexts w)).

Definition cancelAnimationFrame (id : nat) (w : Window) : Window :=
  set_frames (filter (fun f => negb (Nat.eqb (frame_id f) id)) (frames w)) w.

(** [new AudioContext()]: the clock of a fresh context reads zero. *)
Definition newAudioContext (w : Window) : nat * Window :=
  let id := List.length (contexts w) in
  (id, set_contexts (contexts w ++ [mkContext id (buildGraph 0) false false]) w).

Definition update_context (id : nat) (f : AudioContext -> AudioContext)
    (w : Window) : Window :=
  set_contexts
    (map (fun c => if Nat.eqb (ctx_id c) id then f c else c) (contexts w)) w.

Definition stop_context (c : AudioContext) : AudioContext :=
  mkContext (ctx_id c) (ctx_graph c) true (ctx_closed c).
Definition close_context (c : AudioContext) : AudioContext :=
  mkContext (ctx_id c) (ctx_graph c) (ctx_stopped c) true.


(** *** React's effects *)

(** [timeoutsRef.current.forEach(clearTimeout); timeoutsRef.current = []]
    (lines 578-579 and 597-598). *)
Definition clearTimeouts (s : State) : State :=
  let w := fold_left (fun w id => clearTimeout id w) (timeoutsRef (refs s))
             (win s) in
  with_refs (set_timeoutsRef []) (with_win (fun _ => w) s).

(** [setIsComplete(b)] with the effect on [isComplete] (lines 595-600),
    which runs when the value changed and clears the timers when it is set. *)
Definition setIsComplete (b : bool) (s : State) : State :=
  let changed := negb (Bool.eqb (isComplete (view s)) b) in
  let s := with_view (set_isComplete b) s in
  if changed && b then clearTimeouts s else s.

(** The cleanup of the effect on [runKey] (lines 435-440). *)
Definition cancelAnimation (s : State) : State :=
  match animationRef (refs s) with
  | Some id =>
      if Nat.eqb id 0 then s
      else with_refs (set_animationRef None)
             (with_win (cancelAnimationFrame id) s)
  | None => s
  end.

(** The effect on [runKey] that [beginStory] triggers (lines 200-207, 433):
    the cleanup of the instance before, when that one had installed one, and
    the new instance, which gives up without a run or without a canvas. *)
Definition runKeyEffect (now : Q) (previous : nat) (s : State) : State :=
  let installed :=
    negb (Nat.eqb previous 0) &&
    match canvasEl s with Some _ => true | None => false end in
  let s := if installed then cancelAnimation s else s in
  if Nat.eqb (runKey (view s)) 0 then s
  else
    match canvasEl s with
    | None => s
    | Some _ =>
        let s := with_refs (set_startTimeRef now) s in
        let (id, w) := requestAnimationFrame (runKey (view s)) (win s) in
        with_refs (set_animationRef (Some id)) (with_win (fun _ => w) s)
    end.

(** *** [draw]: the part that touches the component (lines 209-216, 426-430)

    Between its two halves [draw] paints the frame ([paint] above) from
    [now], [now - startTimeRef] and [phaseRef]; painting changes nothing of
    the state below.  [run] is the run of the effect that owns the closure. *)
Definition draw (run : nat) (now : Q) (s : State) : State :=
  let elapsed := now - startTimeRef (refs s) in
  let clamped := Qmin elapsed STORY_DURATION in
  let progressValue := clamped / STORY_DURATION in
  let s :=
    if Qltb 120 (now - lastProgressUpdate (refs s))
    then observe (Published now progressValue)
           (with_refs (set_lastProgressUpdate now)
              (with_view (set_progress progressValue) s))
    else s in
  if Qltb clamped STORY_DURATION
  then
    let (id, w) := requestAnimationFrame run (win s) in
    with_refs (set_animationRef (Some id)) (with_win (fun _ => w) s)
  else observe (Completed now) (setIsComplete true s).

(** *** [startAudio] and [beginStory] (lines 459-466, 553, 569-593) *)

Definition startAudio (s : State) : State :=
  let s :=
    match audioStateRef (refs s) with
    | Some id =>
        let s := with_win (update_context id stop_context) s in
        let s := with_win (update_context id close_context) s in
        with_refs (set_audioStateRef None) s
    | None => s
    end in
  let (id, w) := newAudioContext (win s) in
  with_refs (set_audioStateRef (Some id)) (with_win (fun _ => w) s).

(** One [setTimeout] of [beginStory], its handle pushed on [timeoutsRef]. *)
Definition schedule (now : Q) (cb : Callback) (delay : Q) (s : State) : State :=
  let (id, w) := setTimeout now (runKey (view s)) cb delay (win s) in
  with_refs (fun r => set_timeoutsRef (timeoutsRef r ++ [id]) r)
    (with_win (fun _ => w) s).

(** [beginStory] called at time [now].  The handler runs to its end, and
    React commits the state it set together with the effect on [runKey],
    before the window delivers anything else; the observations of the run
    before are dropped. *)
Definition beginStory (now : Q) (s : State) : State :=
  let previous := runKey (view s) in
  let s := startAudio s in
  let s := with_view (set_phase intro) s in
  let s := with_refs (set_phaseRef intro) s in
  let s := with_view (set_started true) s in
  let s := with_view (set_runKey (S previous)) s in
  let s := with_view (set_progress 0) s in
  let s := setIsComplete false s in
  let s := clearTimeouts s in
  let s :=
    fold_left
      (fun s e => schedule now (SetPhase (phase_ e)) (at_ e) s)
      PHASE_SEQUENCE s in
  let s := schedule now Finish (STORY_DURATION + 60) s in
  let s := mkState (view s) (refs s) (win s) (canvasEl s) [] in
  runKeyEffect now previous s.

(** *** The event loop *)

(** A timer callback runs. *)
Definition runCallback (cb : Callback) (s : State) : State :=
  match cb with
  | SetPhase nextPhase =>
      with_refs (set_phaseRef nextPhase) (with_view (set_phase nextPhase) s)
  | Finish => setIsComplete true s
  end.

(** The window fires a pending timer: it leaves the pending ones, then its
    callback runs. *)
Definition fire (t : Timer) (s : State) : State :=
  let s := with_win (clearTimeout (timer_id t)) s in
  let s := observe (Fired t (runKey (view s))) s in
  runCallback (timer_cb t) s.

(** The pending timer that is due first; among equal due times the one
    created first. *)
Fixpoint earliest (l : list Timer) : option Timer :=
  match l with
  | [] => None
  | t :: rest =>
      match earliest rest with
      | None => Some t
      | Some u => if Qle_bool (timer_due t) (timer_due u) then Some t else Some u
      end
  end.

(** Time passes up to [now]: the timers due by then fire, each in its turn.
    A callback schedules nothing, so the number of pending timers bounds the
    number of turns. *)
Fixpoint advanceN (turns : nat) (now : Q) (s : State) : State :=
  match turns with
  | O => s
  | S n =>
      match earliest (timers (win s)) with
      | Some t =>
          if Qle_bool (timer_due t) now then advanceN n now (fire t s) else s
      | None => s
      end
  end.

Definition advance (now : Q) (s : State) : State :=
  advanceN (List.length (timers (win s))) now s.

(** The frame callbacks requested so far all run, on a list of requests
    emptied for the next frame. *)
Definition animationFrame (now : Q) (s : State) : State :=
  let requested := frames (win s) in
  let s := with_win (set_frames []) s in
  fold_left (fun s f => draw (frame_run f) now s) requested s.

(** What can happen to the mounted component: a press on the button that is
    shown (start before the first run, replay once a run is complete), an
    animation frame, or time passing. *)
Inductive Event : Set :=
  | Click (now : Q)
  | AnimationFrame (now : Q)
  | Tick (now : Q).

Definition event_time (e : Event) : Q :=
  match e with Click now | AnimationFrame now | Tick now => now end.

Definition step (s : State) (e : Event) : State :=
  let s := advance (event_time e) s in
  match e with
  | Click now =>
      if negb (started (view s)) || isComplete (view s)
      then beginStory now s else s
  | AnimationFrame now => animationFrame now s
  | Tick _ => s
  end.

Definition run (es : list Event) (s : State) : State := fold_left step es s.

(** The component as mounted, before any run. *)
Definition mounted (cv : option Canvas) : State :=
  mkState
    (mkView idle false 0 0 false)
    (mkRefs 0 None idle [] None 0)
    (mkWindow [] [] 1 1 [])
    cv
    [].

(** ** More of the page: the buffers, [resize], unmounting, the progress bar
    (lines 127-146, 178-188, 435-457, 663) *)

(** *** The buffers of the audio director (lines 127-146) *)









(** *** The size of the canvas (lines 178-188) *)



(** *** Unmounting and the progress bar *)


(** The width of the progress bar, in percent (line 663). *)
Definition barPercent (s : State) : Q := Qmin (progress (view s) * 100) 100.

(** ** The vocabulary of the claims *)

(** *** Observations *)

(** The publications among the observations, newest first. *)
Fixpoint pubs (tr : list Obs) : list (Q * Q) :=
  match tr with
  | [] => []
  | Published n v :: rest => (n, v) :: pubs rest
  | _ :: rest => pubs rest
  end.

(** The timers among the observations, newest first. *)
Fixpoint firedOf (tr : list Obs) : list Timer :=
  match tr with
  | [] => []
  | Fired t _ :: rest => t :: firedOf rest
  | _ :: rest => firedOf rest
  end.

(** The progress on display: the last value published, zero before. *)
Definition latest (l : list (Q * Q)) : Q :=
  match l with [] => 0 | p :: _ => snd p end.

(** *** Runs

    Events of one run, in the order of time: no press on a button, and no
    event earlier than the one before. *)
Fixpoint orderedb (since : Q) (es : list Event) : bool :=
  match es with
  | [] => true
  | Click _ :: _ => false
  | e :: rest => Qle_bool since (event_time e) && orderedb (event_time e) rest
  end.

Definition lastTime (since : Q) (es : list Event) : Q :=
  fold_left (fun _ e => event_time e) es since.

(** The timers one [beginStory] schedules: a phase change per entry of the
    timeline, then the fallback that completes the run. *)
Definition plan : list (Callback * Q) :=
  map (fun e => (SetPhase (phase_ e), at_ e)) PHASE_SEQUENCE
  ++ [(Finish, STORY_DURATION + 60)].

Fixpoint mkTimers (T : Q) (r id : nat) (p : list (Callback * Q)) : list Timer :=
  match p with
  | [] => []
  | (cb, delay) :: rest => mkTimer id (T + delay) cb r :: mkTimers T r (S id) rest
  end.

Definition sched (T : Q) (r base : nat) : list Timer := mkTimers T r base plan.



(** *** The renderer *)

(** The colour of the eye strokes from [hint] to [scare]. *)
Definition alarming : string := "rgba(211, 43, 55, 0.75)".

(** The bar of turn [i] of the loop, from the samples it draws. *)
Definition barOf (strength width height : Q) (g : Rng) (i : nat) : Bar :=
  let barWidth := g (5 * i + 1)%nat * width * 0.12 in
  mkBar (g (5 * i)%nat * strength)
        (g (5 * i + 3)%nat * (width - barWidth))
        (g (5 * i + 4)%nat * height)
        barWidth
        (3 + g (5 * i + 2)%nat * 3).

(** *** Sample inputs *)

(** A source of samples that cycles through 0, 0.1, ..., 0.9. *)
Definition tenths : Rng := fun n => inject_Z (Z.of_nat (n mod 10)) / 10.

Definition demoCanvas : Canvas := mkCanvas 720 1280 2.

Definition demoRun : list Event :=
  [AnimationFrame 1016; AnimationFrame 1200; Tick 8000].

(** ** The vocabulary of the further properties *)




(** The time of an automation event. *)
Definition automationTime (e : Automation) : Q :=
  match e with
  | SetValueAtTime _ t | LinearRampToValueAtTime _ t
  | ExponentialRampToValueAtTime _ t => t
  end.

(** The time of the last event of a parameter (the time it was set up at,
    without events). *)
Definition envelopeEnd (p : AudioParam) : Q :=
  fold_left (fun _ e => automationTime e) (param_events p) (param_setAt p).

(** A schedule the Web Audio API plays as written: no event earlier than
    the one before, every ramp later than the event it starts from, and
    every exponential ramp between two positive values (an exponential ramp
    to zero is refused, one from zero or across zero holds its value). *)
Fixpoint schedulable (t0 v0 : Q) (events : list Automation) : Prop :=
  match events with
  | [] => True
  | SetValueAtTime v1 t1 :: rest => t0 <= t1 /\ schedulable t1 v1 rest
  | LinearRampToValueAtTime v1 t1 :: rest => t0 < t1 /\ schedulable t1 v1 rest
  | ExponentialRampToValueAtTime v1 t1 :: rest =>
      t0 < t1 /\ 0 < v0 /\ 0 < v1 /\ schedulable t1 v1 rest
  end.

(** The automated parameters of a graph. *)
Definition params (g : AudioGraph) : list AudioParam :=
  ambientGain g
  :: flat_map (fun k => [creak_frequency k; creak_gain k]) (creaks g)
  ++ [scareGain g; boomFrequency g; boomGain g].

(** The sounds that play once, each with the gain that shapes it: the
    creaks, the scare noise and the boom. *)
Definition oneShots (g : AudioGraph) : list (AudioParam * Source) :=
  map (fun k => (creak_gain k, creak_osc k)) (creaks g)
  ++ [(scareGain g, scareNoise g); (boomGain g, boomOsc g)].

(** * Proofs

    ** Comparisons *)

Lemma Qle_bool_false (a b : Q) : Qle_bool a b = false <-> b < a.
Proof.
  split; intro H.
  - apply Qnot_le_lt. intro L. apply Qle_bool_iff in L. congruence.
  - destruct (Qle_bool a b) eqn:E; [|reflexivity].
    apply Qle_bool_iff in E. exfalso. eapply Qlt_not_le; eauto.
Qed.

Lemma Qltb_true (a b : Q) : Qltb a b = true <-> a < b.
Proof. unfold Qltb. rewrite negb_true_iff. apply Qle_bool_false. Qed.

Lemma Qltb_false (a b : Q) : Qltb a b = false <-> b <= a.
Proof. unfold Qltb. rewrite negb_false_iff. apply Qle_bool_iff. Qed.

(** ** The camera zoom *)

Section ZoomFacts.

Variable c : Q.

Lemma boostAt_above (m : Q) : inWindow c m = true -> 0.3 < boostAt c m.
Proof.
  unfold inWindow, boostAt. rewrite Qltb_true. intro H.
  assert (Qabs (c - m) / 220 < 1) by (apply Qlt_shift_div_r; lra).
  lra.
Qed.

Lemma boost_fold_ge (ms : list Q) :
  forall z, z <= fold_left (boostStep c) ms z.
Proof.
  induction ms as [|m ms IH]; intro z; simpl.
  - apply Qle_refl.
  - eapply Qle_trans; [|apply IH]. unfold boostStep.
    destruct (inWindow c m); [apply Q.le_max_l | apply Qle_refl].
Qed.

Lemma boost_fold_upper (ms : list Q) :
  forall z m, In m ms -> inWindow c m = true ->
    boostAt c m <= fold_left (boostStep c) ms z.
Proof.
  induction ms as [|m0 ms IH]; intros z m Hin Hw; simpl in *.
  - contradiction.
  - destruct Hin as [->|Hin].
    + eapply Qle_trans; [|apply boost_fold_ge]. unfold boostStep.
      rewrite Hw. apply Q.le_max_r.
    + now apply IH.
Qed.

Lemma boost_fold_attained (ms : list Q) :
  forall z,
    ((forall m, In m ms -> inWindow c m = false) /\
     fold_left (boostStep c) ms z = z) \/
    fold_left (boostStep c) ms z == z \/
    exists m, In m ms /\ inWindow c m = true /\
              fold_left (boostStep c) ms z == boostAt c m.
Proof.
  induction ms as [|m0 ms IH]; intro z; simpl.
  - left. split; [tauto | reflexivity].
  - destruct (inWindow c m0) eqn:W.
    + right.
      assert (B : boostStep c z m0 = Qmax z (boostAt c m0))
        by (unfold boostStep; now rewrite W).
      rewrite B.
      assert (D : forall r, r == Qmax z (boostAt c m0) ->
                r == z \/ exists m, In m (m0 :: ms) /\ inWindow c m = true /\
                                    r == boostAt c m).
      { intros r R.
        destruct (Q.max_dec z (boostAt c m0)) as [M|M]; rewrite M in R.
        - now left.
        - right. exists m0. repeat split; [now left | exact W | exact R]. }
      destruct (IH (Qmax z (boostAt c m0))) as [[_ E]|[E|(m & Hin & Hw & E)]].
      * apply D. rewrite E. reflexivity.
      * apply D. exact E.
      * right. exists m. repeat split; [now right | exact Hw | exact E].
    + destruct (IH (boostStep c z m0)) as [[N E]|[E|(m & Hin & Hw & E)]];
        unfold boostStep in *; rewrite W in *.
      * left. split; [|exact E]. intros m [<-|Hin]; auto.
      * right. now left.
      * right. right. exists m. repeat split; [now right | exact Hw | exact E].
Qed.

End ZoomFacts.

Lemma in_window_iff (c m : Q) : inWindow c m = true <-> Qabs (c - m) < 220.
Proof. apply Qltb_true. Qed.

(** C7.  On every frame the zoom that is painted is the base zoom
    [1.12 + 0.45 * progress], linear in the progress, plus the boost; the
    boost is zero exactly when the clamped elapsed time is at least 220 ms
    away from each of the four jump cuts (6200, 12800, 20750, 24400 ms);
    within 220 ms of a jump cut it is at least the boost of that jump cut
    (so above 0.3), and it is the boost of one of the jump cuts whose
    window holds the time: the maximum over those windows. *)
Theorem zoom_is_base_plus_window_boost :
  forall (sin cos : Q -> Q) (cv : Canvas) (now elapsed : Q) (ph : Phase) (g : Rng),
    let c := clampedOf elapsed in
    p_zoom (paint sin cos cv now elapsed ph g)
      == (1.12 + 0.45 * progressOf elapsed) + zoomBoost c /\
    (zoomBoost c == 0 <->
       forall m, In m JUMP_CUT_MOMENTS -> 220 <= Qabs (c - m)) /\
    (forall m, In m JUMP_CUT_MOMENTS -> Qabs (c - m) < 220 ->
       boostAt c m <= zoomBoost c /\ 0.3 < zoomBoost c) /\
    (zoomBoost c == 0 \/
     exists m, In m JUMP_CUT_MOMENTS /\ Qabs (c - m) < 220 /\
               zoomBoost c == boostAt c m).
Proof.
  intros sn cs cv now elapsed ph g c.
  assert (U : forall m, In m JUMP_CUT_MOMENTS -> Qabs (c - m) < 220 ->
                boostAt c m <= zoomBoost c /\ 0.3 < zoomBoost c).
  { intros m Hin Hw. apply in_window_iff in Hw.
    assert (L := boost_fold_upper c JUMP_CUT_MOMENTS 0 m Hin Hw).
    split; [exact L|].
    eapply Qlt_le_trans; [apply (boostAt_above c m Hw) | exact L]. }
  split; [|split; [|split]].
  - simpl. unfold zoomOf, zoomBase. fold c. ring.
  - split.
    + intros Z m Hin. apply Qnot_lt_le. intro Hw.
      destruct (U m Hin Hw) as [_ P]. rewrite Z in P. lra.
    + intro N.
      destruct (boost_fold_attained c JUMP_CUT_MOMENTS 0)
        as [[_ E]|[E|(m & Hin & Hw & _)]].
      * unfold zoomBoost, zoomBoostOver. rewrite E. reflexivity.
      * exact E.
      * apply in_window_iff in Hw. specialize (N m Hin). lra.
  - exact U.
  - destruct (boost_fold_attained c JUMP_CUT_MOMENTS 0)
      as [[_ E]|[E|(m & Hin & Hw & E)]].
    + left. unfold zoomBoost, zoomBoostOver. rewrite E. reflexivity.
    + now left.
    + right. exists m. rewrite <- in_window_iff. auto.
Qed.

(** ** The camera shake *)

(** C6, as stated, fails: in the phase [hint] the amplitude is still the
    default 1.5, not 3.5. *)
Lemma shake_at_hint_is_default :
  shakeFactor hint == 1.5 /\ ~ shakeFactor hint == 3.5.
Proof. split; [reflexivity | discriminate]. Qed.

(** C6, amended.  On every frame the shake offsets are
    [sin (0.012 now)] and [0.6 cos (0.009 now)] times an amplitude that is a
    step function of the phase: 1.5 in idle, intro, hint and aftermath, 3.5
    in manifest, 6 in escalate and 12 in scare. *)
Theorem shake_amplitude_steps_with_phase :
  forall (sin cos : Q -> Q) (cv : Canvas) (now elapsed : Q) (ph : Phase) (g : Rng),
    let f := paint sin cos cv now elapsed ph g in
    p_xShake f = sin (now * 0.012) * shakeFactor ph /\
    p_yShake f = cos (now * 0.009) * shakeFactor ph * 0.6 /\
    shakeFactor ph ==
      (if Phase_eqb ph scare then 12
       else if Phase_eqb ph escalate then 6
       else if Phase_eqb ph manifest then 3.5
       else 1.5) /\
    (shakeFactor idle == 1.5 /\ shakeFactor intro == 1.5 /\
     shakeFactor hint == 1.5 /\ shakeFactor manifest == 3.5 /\
     shakeFactor escalate == 6 /\ shakeFactor scare == 12 /\
     shakeFactor aftermath == 1.5).
Proof.
  intros sn cs cv now elapsed ph g f.
  split; [reflexivity|]. split; [reflexivity|].
  split; [destruct ph; reflexivity|].
  repeat split; reflexivity.
Qed.

(** ** The drawing on the wall *)

(** C9, as stated, fails: [aftermath] comes after [hint], yet its eye
    strokes have the colour and the width of [idle]; and in [hint] itself
    the strokes are no wider than in [idle]. *)
Lemma eyes_calm_again_in_aftermath :
  (phase_rank hint <= phase_rank aftermath)%nat /\
  eyeStrokeStyle aftermath = eyeStrokeStyle idle /\
  eyeStrokeStyle aftermath <> alarming /\
  eyeLineWidth aftermath = eyeLineWidth idle /\
  eyeOffset aftermath = eyeOffset idle /\
  eyeLineWidth hint = eyeLineWidth idle /\
  eyeOffset hint = eyeOffset idle.
Proof.
  repeat split; try reflexivity; [simpl; lia | discriminate].
Qed.

(** C9, amended.  The opacity of the wall drawing is [0.12 + 0.25 *
    progress], so it grows linearly with it; the eye strokes have the
    alarming colour exactly in hint, manifest, escalate and scare; their
    width is 7 in scare and 5 in every other phase, their offset 9 in
    escalate, 12 in scare and 6 elsewhere; width and offset are maximal in
    scare. *)
Theorem wall_drawing_by_progress_and_phase :
  forall (sin cos : Q -> Q) (cv : Canvas) (now elapsed : Q) (ph : Phase) (g : Rng),
    let f := paint sin cos cv now elapsed ph g in
    p_wallAlpha f == 0.12 + 0.25 * progressOf elapsed /\
    (forall elapsed', progressOf elapsed <= progressOf elapsed' <->
       p_wallAlpha f <= p_wallAlpha (paint sin cos cv now elapsed' ph g)) /\
    (p_eyeStroke f = alarming <->
       ph = hint \/ ph = manifest \/ ph = escalate \/ ph = scare) /\
    p_eyeLineWidth f == (if Phase_eqb ph scare then 7 else 5) /\
    p_eyeOffset f ==
      (if Phase_eqb ph scare then 12
       else if Phase_eqb ph escalate then 9 else 6) /\
    (p_eyeLineWidth f <= eyeLineWidth scare /\
     p_eyeOffset f <= eyeOffset scare /\
     eyeStrokeStyle scare = alarming).
Proof.
  intros sn cs cv now elapsed ph g f.
  split; [simpl; unfold wallAlpha; ring|].
  split; [intro e'; simpl; unfold wallAlpha; split; intro; lra|].
  split.
  { simpl. split.
    - destruct ph; simpl; intro H; try discriminate H; tauto.
    - intros [ -> | [ -> | [ -> | -> ] ] ]; reflexivity. }
  split; [destruct ph; reflexivity|].
  split; [destruct ph; reflexivity|].
  split; [|split; [|reflexivity]]; destruct ph; simpl; unfold Qle; simpl; lia.
Qed.

(** ** The glitch bars *)

Section GlitchFacts.

Variables strength width height : Q.

Lemma glitchLoop_length (n : nat) :
  forall g, List.length (fst (glitchLoop n strength width height g)) = n.
Proof.
  induction n as [|n IH]; intro g; simpl; [reflexivity|].
  destruct (glitchLoop n strength width height _) as [bs g'] eqn:E.
  simpl. f_equal. specialize (IH (fun k => g (S (S (S (S (S k))))))).
  rewrite E in IH. exact IH.
Qed.

Lemma glitchLoop_nth (n : nat) :
  forall g i, (i < n)%nat ->
    nth_error (fst (glitchLoop n strength width height g)) i
    = Some (barOf strength width height g i).
Proof.
  induction n as [|n IH]; intros g i Hi; [lia|]. simpl.
  destruct (glitchLoop n strength width height _) as [bs g'] eqn:E.
  destruct i as [|i]; simpl.
  - reflexivity.
  - specialize (IH (fun k => g (S (S (S (S (S k)))))) i).
    rewrite E in IH. simpl in IH. rewrite IH by lia.
    unfold barOf.
    replace (5 * S i)%nat with (S (S (S (S (S (5 * i)))))) by lia.
    replace (5 * S i + 1)%nat with (S (S (S (S (S (5 * i + 1)))))) by lia.
    replace (5 * S i + 2)%nat with (S (S (S (S (S (5 * i + 2)))))) by lia.
    replace (5 * S i + 3)%nat with (S (S (S (S (S (5 * i + 3)))))) by lia.
    replace (5 * S i + 4)%nat with (S (S (S (S (S (5 * i + 4)))))) by lia.
    reflexivity.
Qed.

Hypothesis width_nonneg : 0 <= width.
Hypothesis strength_pos : 0 < strength.

Lemma barOf_inside (g : Rng) (i : nat) :
  unit_samples g ->
  let b := barOf strength width height g i in
  0 <= barX b /\ barX b + barWidth b <= width /\
  0 <= barAlpha b /\ barAlpha b < strength.
Proof.
  intros U b. unfold b, barOf. cbn [barX barWidth barAlpha].
  destruct (U (5 * i)%nat) as [A0 A1].
  destruct (U (5 * i + 1)%nat) as [W0 W1].
  destruct (U (5 * i + 3)%nat) as [X0 X1].
  set (a := g (5 * i)%nat) in *.
  set (w := g (5 * i + 1)%nat) in *.
  set (x := g (5 * i + 3)%nat) in *.
  assert (0 <= w * width) by nra.
  assert (w * width <= width) by nra.
  set (bw := w * width * 0.12).
  assert (0 <= width - bw) by (unfold bw; lra).
  fold bw. repeat split; try nra.
Qed.

End GlitchFacts.

Lemma glitchStrength_pos (ph : Phase) : 0 < glitchStrength ph.
Proof. destruct ph; reflexivity. Qed.

Lemma orOne_pos (x : Q) : 0 <= x -> 0 < orOne x.
Proof.
  intro H. unfold orOne. destruct (Qeq_bool x 0) eqn:E; [reflexivity|].
  apply Qeq_bool_neq in E. apply Qle_lteq in H. destruct H as [H|H]; [exact H|].
  exfalso. apply E. symmetry. exact H.
Qed.

Lemma logicalWidth_below (cv : Canvas) :
  0 <= canvas_width cv -> 1 <= devicePixelRatio cv ->
  logicalWidth cv <= canvas_width cv.
Proof.
  intros W D. unfold logicalWidth.
  assert (P : 1 <= orOne (devicePixelRatio cv)).
  { unfold orOne. destruct (Qeq_bool _ 0); [apply Qle_refl | exact D]. }
  apply Qle_shift_div_r; [lra | nra].
Qed.

Lemma logicalWidth_nonneg (cv : Canvas) :
  0 <= canvas_width cv -> 0 <= devicePixelRatio cv -> 0 <= logicalWidth cv.
Proof.
  intros W D. unfold logicalWidth.
  apply Qle_shift_div_l; [now apply orOne_pos | lra].
Qed.

Lemma glitchBars_nth (ph : Phase) (w h : Q) (g : Rng) (i : nat) :
  (i < List.length (fst (glitchBars ph w h g)))%nat ->
  nth_error (fst (glitchBars ph w h g)) i
  = Some (barOf (glitchStrength ph) w h g i).
Proof.
  unfold glitchBars. destruct (glitchActive ph); simpl; [|lia].
  rewrite glitchLoop_length. apply glitchLoop_nth.
Qed.

Lemma glitchBars_length (ph : Phase) (w h : Q) (g : Rng) :
  List.length (fst (glitchBars ph w h g))
  = if glitchActive ph then glitchCount ph else O.
Proof.
  unfold glitchBars. destruct (glitchActive ph); [|reflexivity].
  apply glitchLoop_length.
Qed.

Lemma tenths_unit : unit_samples tenths.
Proof.
  intro n. unfold tenths.
  assert (H : (n mod 10 < 10)%nat) by (apply Nat.mod_upper_bound; lia).
  set (k := (n mod 10)%nat) in *.
  assert (0 <= inject_Z (Z.of_nat k)).
  { change 0 with (inject_Z 0). rewrite <- Zle_Qle. lia. }
  assert (inject_Z (Z.of_nat k) < 10).
  { change 10 with (inject_Z 10). rewrite <- Zlt_Qlt. lia. }
  split.
  - apply Qle_shift_div_l; [reflexivity | lra].
  - apply Qlt_shift_div_r; [reflexivity | lra].
Qed.

(** C5, as stated, fails in one respect: the count of the bars is not
    random.  Two different sample sequences give different bars, 28 of them
    each time in [scare], and in every phase the count is the same whatever
    the samples. *)
Lemma glitch_count_is_not_random :
  List.length (fst (glitchBars scare 360 640 (fun _ => 0))) = 28%nat /\
  List.length (fst (glitchBars scare 360 640 tenths)) = 28%nat /\
  fst (glitchBars scare 360 640 (fun _ => 0))
    <> fst (glitchBars scare 360 640 tenths) /\
  (forall ph w h g g',
     List.length (fst (glitchBars ph w h g))
     = List.length (fst (glitchBars ph w h g'))).
Proof.
  split; [reflexivity|]. split; [reflexivity|]. split.
  - intro H. apply (f_equal (fun l => map barWidth (firstn 1 l))) in H.
    vm_compute in H. discriminate H.
  - intros. now rewrite !glitchBars_length.
Qed.

(** C5, amended.  A frame shows glitch bars exactly in manifest, escalate
    and scare, and none in idle, intro, hint and aftermath.  Their count is
    fixed by the phase (18 in manifest and in escalate, 28 in scare); place,
    size and alpha of each bar come from five samples of the random source,
    and the alpha stays below the cap of the phase: 0.18 in manifest, 0.30
    in escalate, 0.48 in scare. *)
Theorem glitch_bars_by_phase :
  forall (sin cos : Q -> Q) (cv : Canvas) (now elapsed : Q) (ph : Phase) (g : Rng),
    unit_samples g ->
    let bars := p_bars (paint sin cos cv now elapsed ph g) in
    let cap := if Phase_eqb ph scare then 0.48
               else if Phase_eqb ph escalate then 0.3 else 0.18 in
    (bars <> [] <-> ph = manifest \/ ph = escalate \/ ph = scare) /\
    (ph = idle \/ ph = intro \/ ph = hint \/ ph = aftermath -> bars = []) /\
    List.length bars
      = (if Phase_eqb ph scare then 28
         else if Phase_eqb ph manifest || Phase_eqb ph escalate then 18
         else 0)%nat /\
    (forall i, (i < List.length bars)%nat ->
       nth_error bars i
       = Some (barOf cap (logicalWidth cv) (logicalHeight cv) g i)) /\
    Forall (fun b => 0 <= barAlpha b /\ barAlpha b < cap) bars.
Proof.
  intros sn cs cv now elapsed ph g U bars cap.
  assert (C : cap = glitchStrength ph) by (destruct ph; reflexivity).
  assert (L : List.length bars
              = if glitchActive ph then glitchCount ph else O)
    by apply glitchBars_length.
  split; [|split; [|split; [|split]]].
  - split.
    + intro N. destruct ph; simpl in N; try (now elim N); tauto.
    + intros [ -> | [ -> | -> ] ] E;
        apply (f_equal (@List.length Bar)) in E; rewrite L in E;
        discriminate E.
  - intros [ -> | [ -> | [ -> | -> ] ] ]; reflexivity.
  - rewrite L. destruct ph; reflexivity.
  - intros i Hi. rewrite C. now apply glitchBars_nth.
  - apply Forall_forall. intros b Hb.
    destruct (In_nth_error _ _ Hb) as [i Hi].
    assert (Hlt : (i < List.length bars)%nat)
      by (apply nth_error_Some; congruence).
    unfold bars in Hi, Hlt. simpl in Hi, Hlt.
    rewrite (glitchBars_nth _ _ _ _ _ Hlt) in Hi. inversion Hi; subst b.
    rewrite C. cbn [barOf barAlpha].
    destruct (U (5 * i)%nat) as [A0 A1].
    assert (P := glitchStrength_pos ph).
    split; nra.
Qed.

(** The theorem at a frame of [scare] on the sample canvas. *)
Lemma glitch_bars_by_phase_witness :
  let bars := p_bars (paint (fun _ => 0) (fun _ => 0) demoCanvas 25500 24500
                        scare tenths) in
  (bars <> [] <-> scare = manifest \/ scare = escalate \/ scare = scare) /\
  (scare = idle \/ scare = intro \/ scare = hint \/ scare = aftermath ->
   bars = []) /\
  List.length bars = 28%nat /\
  (forall i, (i < List.length bars)%nat ->
     nth_error bars i
     = Some (barOf 0.48 (logicalWidth demoCanvas) (logicalHeight demoCanvas)
               tenths i)) /\
  Forall (fun b => 0 <= barAlpha b /\ barAlpha b < 0.48) bars.
Proof.
  exact (glitch_bars_by_phase (fun _ => 0) (fun _ => 0) demoCanvas 25500 24500
           scare tenths tenths_unit).
Defined.

(** C10.  On a canvas of non-negative width, every glitch bar of a frame
    starts at or right of the left edge and ends at or left of the right
    edge of the canvas as [draw] measures it ([width], the backing width
    over the device pixel ratio; so also within the backing width when the
    ratio is at least one), and the alpha of its fill is strictly below the
    cap of the current phase. *)
Theorem glitch_bars_inside_canvas :
  forall (sin cos : Q -> Q) (cv : Canvas) (now elapsed : Q) (ph : Phase) (g : Rng),
    unit_samples g ->
    0 <= canvas_width cv ->
    0 <= devicePixelRatio cv ->
    forall b, In b (p_bars (paint sin cos cv now elapsed ph g)) ->
      0 <= barX b /\
      barX b + barWidth b <= logicalWidth cv /\
      (1 <= devicePixelRatio cv -> barX b + barWidth b <= canvas_width cv) /\
      barAlpha b < glitchStrength ph.
Proof.
  intros sn cs cv now elapsed ph g U W D b Hb. simpl in Hb.
  destruct (In_nth_error _ _ Hb) as [i Hi].
  assert (Hlt : (i < List.length
                       (fst (glitchBars ph (logicalWidth cv)
                               (logicalHeight cv) g)))%nat)
    by (apply nth_error_Some; congruence).
  rewrite (glitchBars_nth _ _ _ _ _ Hlt) in Hi. inversion Hi; subst b.
  destruct (barOf_inside (glitchStrength ph) (logicalWidth cv)
              (logicalHeight cv) (logicalWidth_nonneg cv W D)
              (glitchStrength_pos ph) g i U) as (X0 & X1 & _ & A).
  repeat split; try assumption.
  intro R. eapply Qle_trans; [exact X1 | now apply logicalWidth_below].
Qed.

(** The theorem at the fourth bar of a frame of [scare] on the sample
    canvas. *)
Lemma glitch_bars_inside_canvas_witness :
  let b := barOf 0.48 (logicalWidth demoCanvas) (logicalHeight demoCanvas)
             tenths 3 in
  0 <= barX b /\
  barX b + barWidth b <= logicalWidth demoCanvas /\
  (1 <= devicePixelRatio demoCanvas ->
   barX b + barWidth b <= canvas_width demoCanvas) /\
  barAlpha b < glitchStrength scare.
Proof.
  apply (glitch_bars_inside_canvas (fun _ => 0) (fun _ => 0) demoCanvas
           25500 24500 scare tenths tenths_unit).
  - discriminate.
  - discriminate.
  - vm_compute. do 3 right. left. reflexivity.
Defined.

(** ** The ambient gain *)

(** A schedule of linear ramps only, each ending later and no lower than the
    one before (or than the starting point). *)
Fixpoint rising (t0 v0 : Q) (events : list Automation) : Prop :=
  match events with
  | [] => True
  | LinearRampToValueAtTime v1 t1 :: rest =>
      t0 < t1 /\ v0 <= v1 /\ rising t1 v1 rest
  | _ => False
  end.

(** The value a schedule ends on. *)
Fixpoint finalValue (v0 : Q) (events : list Automation) : Q :=
  match events with
  | [] => v0
  | SetValueAtTime v1 _ :: rest
  | LinearRampToValueAtTime v1 _ :: rest
  | ExponentialRampToValueAtTime v1 _ :: rest => finalValue v1 rest
  end.

Lemma ramp_between (t t0 t1 v0 v1 : Q) :
  t0 < t1 -> v0 <= v1 -> t0 <= t -> t <= t1 ->
  v0 <= v0 + (v1 - v0) * ((t - t0) / (t1 - t0)) /\
  v0 + (v1 - v0) * ((t - t0) / (t1 - t0)) <= v1.
Proof.
  intros Ht Hv L U.
  assert (0 <= (t - t0) / (t1 - t0)) by (apply Qle_shift_div_l; lra).
  assert ((t - t0) / (t1 - t0) <= 1) by (apply Qle_shift_div_r; lra).
  split; nra.
Qed.

Lemma ramp_monotone (t t' t0 t1 v0 v1 : Q) :
  t0 < t1 -> v0 <= v1 -> t <= t' ->
  v0 + (v1 - v0) * ((t - t0) / (t1 - t0))
  <= v0 + (v1 - v0) * ((t' - t0) / (t1 - t0)).
Proof.
  intros Ht Hv L.
  assert ((t - t0) / (t1 - t0) <= (t' - t0) / (t1 - t0)).
  { unfold Qdiv. apply Qmult_le_compat_r; [lra|].
    apply Qlt_le_weak, Qinv_lt_0_compat. lra. }
  nra.
Qed.

Lemma rising_final (events : list Automation) :
  forall t0 v0, rising t0 v0 events -> v0 <= finalValue v0 events.
Proof.
  induction events as [|[v1 t1|v1 t1|v1 t1] rest IH]; intros t0 v0 R;
    simpl in *; try contradiction.
  - apply Qle_refl.
  - destruct R as (_ & Hv & R). eapply Qle_trans; [exact Hv | eauto].
Qed.

Lemma automate_rising (events : list Automation) :
  forall t t0 v0, rising t0 v0 events ->
    exists v, automate t t0 v0 events = Some v /\
              v0 <= v /\ v <= finalValue v0 events.
Proof.
  induction events as [|[v1 t1|v1 t1|v1 t1] rest IH]; intros t t0 v0 R;
    simpl in *; try contradiction.
  - exists v0. repeat split; apply Qle_refl.
  - destruct R as (Ht & Hv & R).
    assert (F := rising_final rest t1 v1 R).
    destruct (Qltb t t1) eqn:E.
    + apply Qltb_true in E. eexists. split; [reflexivity|].
      destruct (Qle_bool t t0) eqn:E0.
      * split; [apply Qle_refl | lra].
      * apply Qle_bool_false in E0.
        destruct (ramp_between t t0 t1 v0 v1) as [A B]; [lra..|].
        split; lra.
    + destruct (IH t t1 v1 R) as (v & Ev & A & B).
      exists v. repeat split; [exact Ev | lra | exact B].
Qed.

Lemma automate_monotone (events : list Automation) :
  forall t t' t0 v0, rising t0 v0 events -> t <= t' ->
    exists v v', automate t t0 v0 events = Some v /\
                 automate t' t0 v0 events = Some v' /\ v <= v'.
Proof.
  induction events as [|[v1 t1|v1 t1|v1 t1] rest IH]; intros t t' t0 v0 R L;
    simpl in *; try contradiction.
  - exists v0, v0. repeat split; apply Qle_refl.
  - destruct R as (Ht & Hv & R).
    destruct (Qltb t t1) eqn:E; destruct (Qltb t' t1) eqn:E'.
    + apply Qltb_true in E, E'. do 2 eexists. repeat split.
      destruct (Qle_bool t t0) eqn:E0; destruct (Qle_bool t' t0) eqn:E0';
        try apply Qle_bool_iff in E0; try apply Qle_bool_iff in E0';
        try apply Qle_bool_false in E0; try apply Qle_bool_false in E0'.
      * apply Qle_refl.
      * destruct (ramp_between t' t0 t1 v0 v1) as [A B]; [lra..|]. lra.
      * lra.
      * apply ramp_monotone; lra.
    + apply Qltb_true in E. apply Qltb_false in E'.
      destruct (automate_rising rest t' t1 v1 R) as (v' & Ev' & A & _).
      do 2 eexists. repeat split; [exact Ev'|].
      destruct (Qle_bool t t0) eqn:E0.
      * lra.
      * apply Qle_bool_false in E0.
        destruct (ramp_between t t0 t1 v0 v1) as [_ B]; [lra..|]. lra.
    + apply Qltb_false in E. apply Qltb_true in E'. lra.
    + apply (IH t t' t1 v1 R L).
Qed.

Lemma ambient_rising (currentTime : Q) :
  let p := ambientGain (buildGraph currentTime) in
  rising (param_setAt p) (param_value p) (param_events p).
Proof.
  simpl. repeat split; try lra; discriminate.
Qed.

(** C8.  The ambient gain is 0.0001 when the run starts; its schedule is
    four linear ramps that end 1 s, 10 s, 18 s and 26 s into the run on
    0.05, 0.12, 0.2 and 0.32; from the start on its value never decreases,
    stays between 0.0001 and 0.32, and is 0.32 from 26 s on. *)
Theorem ambient_gain_rises_to_full :
  forall currentTime t t' : Q,
    currentTime <= t -> t <= t' ->
    let p := ambientGain (buildGraph currentTime) in
    paramAt p currentTime = Some 0.0001 /\
    forallb isLinearRamp (param_events p) = true /\
    rampTargets p = [0.05; 0.12; 0.2; 0.32] /\
    Forall2 Qeq (rampOffsets p) [1; 10; 18; 26] /\
    paramAt p (currentTime + 1) = Some 0.05 /\
    paramAt p (currentTime + 10) = Some 0.12 /\
    paramAt p (currentTime + 18) = Some 0.2 /\
    paramAt p (currentTime + 26) = Some 0.32 /\
    (exists v v', paramAt p t = Some v /\ paramAt p t' = Some v' /\
                  0.0001 <= v /\ v <= v' /\ v' <= 0.32) /\
    (currentTime + 26 <= t -> paramAt p t = Some 0.32).
Proof.
  intros c t t' Lt Ltt' p.
  assert (R := ambient_rising c). fold p in R.
  assert (K : forall a b, a < b -> Qltb (c + a) (c + b) = true)
    by (intros; apply Qltb_true; lra).
  assert (K' : forall a b, b <= a -> Qltb (c + a) (c + b) = false)
    by (intros; apply Qltb_false; lra).
  assert (J : forall a, Qle_bool (c + a) (c + a) = true)
    by (intros; apply Qle_bool_iff; lra).
  split.
  { unfold paramAt; simpl.
    replace (Qltb c (c + 1)) with true by (symmetry; apply Qltb_true; lra).
    replace (Qle_bool c c) with true by (symmetry; apply Qle_bool_iff; lra).
    reflexivity. }
  split; [reflexivity|]. split; [reflexivity|].
  split. { unfold p, rampOffsets; simpl. repeat (apply Forall2_cons; [ring|]). apply Forall2_nil. }
  split. { unfold paramAt; simpl. rewrite K', K, J by lra. reflexivity. }
  split.
  { unfold paramAt; simpl. rewrite !K', K, J by lra. reflexivity. }
  split.
  { unfold paramAt; simpl. rewrite !K', K, J by lra. reflexivity. }
  split. { unfold paramAt; simpl. rewrite !K' by lra. reflexivity. }
  split.
  - destruct (automate_monotone _ t t' _ _ R Ltt') as (v & v' & E & E' & M).
    destruct (automate_rising _ t _ _ R) as (w & Ew & A & _).
    destruct (automate_rising _ t' _ _ R) as (w' & Ew' & _ & B).
    exists v, v'. unfold paramAt. rewrite E, E'. repeat split; [|exact M|].
    + rewrite E in Ew. inversion Ew; subst w. exact A.
    + rewrite E' in Ew'. inversion Ew'; subst w'. exact B.
  - intro L. unfold paramAt; simpl.
    assert (Q1 : forall b, b <= 26 -> Qltb t (c + b) = false)
      by (intros; apply Qltb_false; lra).
    rewrite !Q1 by lra. reflexivity.
Qed.

(** The theorem on a fresh context, 5 s and 26 s into the run. *)
Lemma ambient_gain_rises_to_full_witness :
  let p := ambientGain (buildGraph 0) in
  paramAt p 0 = Some 0.0001 /\
  forallb isLinearRamp (param_events p) = true /\
  rampTargets p = [0.05; 0.12; 0.2; 0.32] /\
  Forall2 Qeq (rampOffsets p) [1; 10; 18; 26] /\
  paramAt p (0 + 1) = Some 0.05 /\
  paramAt p (0 + 10) = Some 0.12 /\
  paramAt p (0 + 18) = Some 0.2 /\
  paramAt p (0 + 26) = Some 0.32 /\
  (exists v v', paramAt p 5 = Some v /\ paramAt p 26 = Some v' /\
                0.0001 <= v /\ v <= v' /\ v' <= 0.32) /\
  (0 + 26 <= 5 -> paramAt p 5 = Some 0.32).
Proof.
  apply (ambient_gain_rises_to_full 0 5 26); discriminate.
Defined.

(** * The component as a state machine *)

(** ** The timers of the window *)

Definition cleared (ids : list nat) (t : Timer) : bool :=
  negb (existsb (Nat.eqb (timer_id t)) ids).

Lemma clearTimeout_fold (ids : list nat) :
  forall w,
    fold_left (fun w id => clearTimeout id w) ids w
    = set_timers (filter (cleared ids) (timers w)) w.
Proof.
  induction ids as [|id ids IH]; intro w; simpl.
  - destruct w as [tm fr nt nf cx]. unfold set_timers, cleared. simpl.
    f_equal. induction tm as [|t tm IHt]; simpl; [reflexivity | now f_equal].
  - rewrite IH. unfold clearTimeout, set_timers. simpl. f_equal.
    induction (timers w) as [|t tm IHt]; simpl; [reflexivity|].
    unfold cleared at 2. simpl.
    destruct (Nat.eqb (timer_id t) id); simpl; [exact IHt|].
    fold (cleared ids t). destruct (cleared ids t); [now f_equal | exact IHt].
Qed.

Lemma clearTimeouts_eq (s : State) :
  clearTimeouts s
  = mkState (view s) (set_timeoutsRef [] (refs s))
      (set_timers (filter (cleared (timeoutsRef (refs s))) (timers (win s)))
         (win s))
      (canvasEl s) (trace s).
Proof. unfold clearTimeouts. rewrite clearTimeout_fold. reflexivity. Qed.

(** Every pending timer has its handle in [timeoutsRef]. *)
Definition tracked (s : State) : Prop :=
  forall t, In t (timers (win s)) -> In (timer_id t) (timeoutsRef (refs s)).

Lemma tracked_cleared (s : State) :
  tracked s -> filter (cleared (timeoutsRef (refs s))) (timers (win s)) = [].
Proof.
  intro H. unfold tracked in H.
  induction (timers (win s)) as [|t tm IH]; simpl; [reflexivity|].
  assert (E : cleared (timeoutsRef (refs s)) t = false).
  { unfold cleared. apply negb_false_iff, existsb_exists.
    exists (timer_id t). split; [apply H; now left | apply Nat.eqb_refl]. }
  rewrite E. apply IH. intros u Hu. apply H. now right.
Qed.

Lemma earliest_In (l : list Timer) (t : Timer) :
  earliest l = Some t -> In t l.
Proof.
  revert t. induction l as [|u l IH]; intros t E; simpl in *; [discriminate|].
  destruct (earliest l) as [v|].
  - destruct (Qle_bool (timer_due u) (timer_due v)); inversion E; subst.
    + now left.
    + right. now apply IH.
  - inversion E. now left.
Qed.

Lemma earliest_none (l : list Timer) : earliest l = None -> l = [].
Proof.
  destruct l as [|u l]; [reflexivity|]. simpl.
  destruct (earliest l) as [v|]; [|discriminate].
  destruct (Qle_bool _ _); discriminate.
Qed.

Lemma earliest_least (l : list Timer) (t : Timer) :
  earliest l = Some t -> forall u, In u l -> timer_due t <= timer_due u.
Proof.
  revert t. induction l as [|v l IH]; intros t E u Hu; simpl in *; [contradiction|].
  destruct (earliest l) as [w|] eqn:Ew.
  - destruct (Qle_bool (timer_due v) (timer_due w)) eqn:C;
      inversion E; subst; clear E.
    + apply Qle_bool_iff in C. destruct Hu as [<-|Hu]; [apply Qle_refl|].
      eapply Qle_trans; [exact C | now apply IH].
    + apply Qle_bool_false in C. destruct Hu as [<-|Hu]; [lra | now apply IH].
  - inversion E; subst. apply earliest_none in Ew. subst l.
    destruct Hu as [<-|[]]. apply Qle_refl.
Qed.

Lemma filter_length_lt {A} (f : A -> bool) (l : list A) (x : A) :
  In x l -> f x = false -> (List.length (filter f l) < List.length l)%nat.
Proof.
  intros Hin Hf. induction l as [|y l IH]; simpl in *; [contradiction|].
  assert (L := filter_length_le f l).
  destruct Hin as [->|Hin].
  - rewrite Hf. lia.
  - specialize (IH Hin). destruct (f y); simpl; lia.
Qed.

Lemma fire_fewer (t : Timer) (s : State) :
  In t (timers (win s)) ->
  (List.length (timers (win (fire t s))) < List.length (timers (win s)))%nat.
Proof.
  intro Hin.
  assert (L : (List.length (timers (win (with_win (clearTimeout (timer_id t)) s)))
               < List.length (timers (win s)))%nat).
  { simpl. apply (filter_length_lt _ _ t Hin). now rewrite Nat.eqb_refl. }
  unfold fire, runCallback. destruct (timer_cb t); [exact L|].
  unfold setIsComplete. destruct (negb _ && true); [|exact L].
  rewrite clearTimeouts_eq. simpl in *.
  eapply Nat.le_lt_trans; [apply filter_length_le | exact L].
Qed.

(** The turns [advance] takes are enough: when it is done, no pending timer
    is due. *)
Lemma advanceN_settles (now : Q) (n : nat) :
  forall s, (List.length (timers (win s)) <= n)%nat ->
    forall t, In t (timers (win (advanceN n now s))) -> now < timer_due t.
Proof.
  induction n as [|n IH]; intros s L t Hin; simpl in *.
  - destruct (timers (win s)); [contradiction | simpl in L; lia].
  - destruct (earliest (timers (win s))) as [u|] eqn:E.
    + destruct (Qle_bool (timer_due u) now) eqn:D.
      * apply (IH (fire u s)); [|exact Hin].
        assert (F := fire_fewer u s (earliest_In _ _ E)). lia.
      * apply Qle_bool_false in D.
        assert (M := earliest_least _ _ E t Hin). lra.
    + apply earliest_none in E. rewrite E in Hin. contradiction.
Qed.

Lemma advance_settles (now : Q) (s : State) (t : Timer) :
  In t (timers (win (advance now s))) -> now < timer_due t.
Proof. apply advanceN_settles. apply Nat.le_refl. Qed.

(** ** What a timer leaves alone *)

Record quiet (s s' : State) : Prop := mkQuiet {
  q_started : started (view s') = started (view s);
  q_runKey : runKey (view s') = runKey (view s);
  q_progress : progress (view s') = progress (view s);
  q_startTime : startTimeRef (refs s') = startTimeRef (refs s);
  q_animation : animationRef (refs s') = animationRef (refs s);
  q_audio : audioStateRef (refs s') = audioStateRef (refs s);
  q_lastUpdate : lastProgressUpdate (refs s') = lastProgressUpdate (refs s);
  q_frames : frames (win s') = frames (win s);
  q_nextTimer : nextTimerId (win s') = nextTimerId (win s);
  q_nextFrame : nextFrameId (win s') = nextFrameId (win s);
  q_contexts : contexts (win s') = contexts (win s);
  q_canvas : canvasEl s' = canvasEl s;
  q_pubs : pubs (trace s') = pubs (trace s)
}.

Lemma quiet_refl (s : State) : quiet s s.
Proof. constructor; reflexivity. Qed.

Lemma quiet_trans (s1 s2 s3 : State) : quiet s1 s2 -> quiet s2 s3 -> quiet s1 s3.
Proof.
  intros [] []. constructor; congruence.
Qed.

Lemma setIsComplete_quiet (b : bool) (s : State) : quiet s (setIsComplete b s).
Proof.
  unfold setIsComplete.
  destruct (negb (Bool.eqb (isComplete (view s)) b) && b).
  - rewrite clearTimeouts_eq. constructor; reflexivity.
  - constructor; reflexivity.
Qed.

Lemma fire_quiet (t : Timer) (s : State) : quiet s (fire t s).
Proof.
  unfold fire, runCallback. destruct (timer_cb t).
  - constructor; reflexivity.
  - eapply quiet_trans; [|apply setIsComplete_quiet]. constructor; reflexivity.
Qed.

Lemma advanceN_quiet (n : nat) (now : Q) :
  forall s, quiet s (advanceN n now s).
Proof.
  induction n as [|n IH]; intro s; simpl; [apply quiet_refl|].
  destruct (earliest (timers (win s))) as [t|]; [|apply quiet_refl].
  destruct (Qle_bool (timer_due t) now); [|apply quiet_refl].
  eapply quiet_trans; [apply fire_quiet | apply IH].
Qed.

Lemma advance_quiet (now : Q) (s : State) : quiet s (advance now s).
Proof. apply advanceN_quiet. Qed.

(** ** What [beginStory] leaves behind *)

(** The contexts after [startAudio] has stopped and closed the one of the
    audio state. *)
Definition retire (au : option nat) (cx : list AudioContext) : list AudioContext :=
  match au with
  | Some id =>
      map (fun c => if Nat.eqb (ctx_id c) id then close_context c else c)
        (map (fun c => if Nat.eqb (ctx_id c) id then stop_context c else c) cx)
  | None => cx
  end.

(** At most one frame request is pending; it is the one [animationRef]
    holds and it belongs to the current run. *)
Definition frames_ok (s : State) : Prop :=
  frames (win s) = [] \/
  exists id, id <> O /\
    frames (win s) = [mkFrame id (runKey (view s))] /\
    animationRef (refs s) = Some id /\
    canvasEl s <> None /\ runKey (view s) <> O.

Lemma setIsComplete_false (s : State) :
  setIsComplete false s = with_view (set_isComplete false) s.
Proof. unfold setIsComplete. now rewrite andb_false_r. Qed.

Lemma retire_length (au : option nat) (cx : list AudioContext) :
  List.length (retire au cx) = List.length cx.
Proof. destruct au; simpl; [now rewrite !length_map | reflexivity]. Qed.

Lemma beginStory_eq (now : Q) (s : State) :
  tracked s -> frames_ok s ->
  beginStory now s
  = mkState
      (mkView intro true (S (runKey (view s))) 0 false)
      (mkRefs
         (match canvasEl s with
          | Some _ => now | None => startTimeRef (refs s) end)
         (match canvasEl s with
          | Some _ => Some (nextFrameId (win s))
          | None => animationRef (refs s) end)
         intro
         (seq (nextTimerId (win s)) 7)
         (Some (List.length (contexts (win s))))
         (lastProgressUpdate (refs s)))
      (mkWindow
         (sched now (S (runKey (view s))) (nextTimerId (win s)))
         (match canvasEl s with
          | Some _ => [mkFrame (nextFrameId (win s)) (S (runKey (view s)))]
          | None => [] end)
         (7 + nextTimerId (win s))
         (match canvasEl s with
          | Some _ => S (nextFrameId (win s))
          | None => nextFrameId (win s) end)
         (retire (audioStateRef (refs s)) (contexts (win s))
          ++ [mkContext (List.length (contexts (win s))) (buildGraph 0)
                false false]))
      (canvasEl s)
      [].
Proof.
  intros Ht Hf. unfold beginStory.
  rewrite setIsComplete_false, clearTimeouts_eq.
  pose proof (tracked_cleared _ Ht) as Hc.
  assert (L := retire_length (audioStateRef (refs s)) (contexts (win s))).
  unfold startAudio, newAudioContext.
  destruct s as [[ph st rk pg ic] [stt an phr tos au lpu] [tm fr nt nf cx] cv tr].
  simpl in Hc, L.
  assert (F : match cv with
              | None => fr = []
              | Some _ =>
                  match an with
                  | Some id =>
                      if Nat.eqb rk 0 then fr = []
                      else if Nat.eqb id 0 then fr = []
                      else filter (fun f => negb (Nat.eqb (frame_id f) id)) fr = []
                  | None => fr = []
                  end
              end).
  { destruct Hf as [E|(id & Hid & E & Ea & Hcv & Hrk)]; simpl in *.
    - rewrite E. destruct cv; [|reflexivity]. destruct an; [|reflexivity].
      destruct (Nat.eqb rk 0); [reflexivity|].
      destruct (Nat.eqb n 0); reflexivity.
    - destruct cv; [|congruence]. inversion Ea; subst an.
      apply Nat.eqb_neq in Hrk, Hid. rewrite Hrk, Hid. rewrite E. simpl.
      now rewrite Nat.eqb_refl. }
  destruct au as [aid|]; simpl in *; rewrite Hc; cbn;
    unfold runKeyEffect, cancelAnimation; cbn;
    (destruct cv as [c|]; cbn;
     [ destruct an as [id|]; cbn;
       [ destruct (Nat.eqb rk 0); cbn;
         [ subst fr
         | destruct (Nat.eqb id 0); cbn; [subst fr | rewrite F] ]
       | subst fr; destruct (Nat.eqb rk 0) ]
     | subst fr; rewrite andb_false_r ]);
    cbn; rewrite ?length_map; reflexivity.
Qed.

(** ** The invariant of the component *)

(** A context whose sources were stopped and which was closed. *)
Definition retired (c : AudioContext) : Prop :=
  ctx_stopped c = true /\ ctx_closed c = true.

(** The audio state holds the context constructed last; every other one is
    retired. *)
Definition audio_ok (s : State) : Prop :=
  match audioStateRef (refs s) with
  | None => contexts (win s) = []
  | Some id =>
      exists old cur,
        contexts (win s) = old ++ [cur] /\
        ctx_id cur = id /\ ctx_closed cur = false /\
        Forall retired old
  end.

Record wf (s : State) : Prop := mkWf {
  wf_tracked : tracked s;
  wf_timer_run :
    forall t, In t (timers (win s)) -> timer_run t = runKey (view s);
  wf_fired :
    forall t r, In (Fired t r) (trace s) ->
      timer_run t = r /\ r = runKey (view s);
  wf_frames : frames_ok s;
  wf_nextFrame : nextFrameId (win s) <> O;
  wf_audio : audio_ok s
}.

Lemma wf_mounted (cv : option Canvas) : wf (mounted cv).
Proof.
  constructor; simpl; try (intros; contradiction).
  - intros t [].
  - now left.
  - discriminate.
  - reflexivity.
Qed.

(** The invariant reads only some cells; a state that agrees on them, with
    fewer timers pending, satisfies it too. *)
Lemma wf_same (s s' : State) :
  incl (timers (win s')) (timers (win s)) ->
  timeoutsRef (refs s') = timeoutsRef (refs s) ->
  runKey (view s') = runKey (view s) ->
  (forall t r, In (Fired t r) (trace s') -> In (Fired t r) (trace s)) ->
  frames (win s') = frames (win s) ->
  animationRef (refs s') = animationRef (refs s) ->
  canvasEl s' = canvasEl s ->
  nextFrameId (win s') = nextFrameId (win s) ->
  audioStateRef (refs s') = audioStateRef (refs s) ->
  contexts (win s') = contexts (win s) ->
  wf s -> wf s'.
Proof.
  intros Ht Hto Hr Hf Hfr Ha Hc Hn Hau Hcx [W1 W2 W3 W4 W5 W6].
  constructor.
  - intros t Hin. rewrite Hto. apply W1, Ht, Hin.
  - intros t Hin. rewrite Hr. apply W2, Ht, Hin.
  - intros t r Hin. rewrite Hr. apply W3, Hf, Hin.
  - unfold frames_ok in *. rewrite Hfr, Hr, Ha, Hc. exact W4.
  - now rewrite Hn.
  - unfold audio_ok in *. rewrite Hau, Hcx. exact W6.
Qed.

Lemma wf_setIsComplete (b : bool) (s : State) : wf s -> wf (setIsComplete b s).
Proof.
  intro W. unfold setIsComplete.
  destruct (negb (Bool.eqb (isComplete (view s)) b) && b).
  - rewrite clearTimeouts_eq. destruct W as [W1 W2 W3 W4 W5 W6].
    assert (E := tracked_cleared _ W1).
    constructor; simpl; try assumption.
    + intros t Hin. simpl in Hin. rewrite E in Hin. contradiction.
    + intros t Hin. rewrite E in Hin. contradiction.
  - apply (wf_same s); try reflexivity; [apply incl_refl | tauto | exact W].
Qed.

Lemma wf_fire (t : Timer) (s : State) :
  wf s -> In t (timers (win s)) -> wf (fire t s).
Proof.
  intros W Hin. unfold fire.
  assert (W1 : wf (observe (Fired t (runKey (view s)))
                     (with_win (clearTimeout (timer_id t)) s))).
  { destruct W as [W1 W2 W3 W4 W5 W6]. constructor; simpl; try assumption.
    - intros u Hu. apply W1. simpl in Hu. apply filter_In in Hu. tauto.
    - intros u Hu. apply W2. apply filter_In in Hu. tauto.
    - intros u r [E|Hu].
      + inversion E; subst. split; [now apply W2 | reflexivity].
      + now apply W3. }
  destruct (timer_cb t); simpl.
  - revert W1. apply wf_same; try reflexivity; [apply incl_refl | tauto].
  - now apply wf_setIsComplete.
Qed.

Lemma wf_advanceN (n : nat) (now : Q) :
  forall s, wf s -> wf (advanceN n now s).
Proof.
  induction n as [|n IH]; intros s W; simpl; [exact W|].
  destruct (earliest (timers (win s))) as [t|] eqn:E; [|exact W].
  destruct (Qle_bool (timer_due t) now); [|exact W].
  apply IH, wf_fire; [exact W | now apply earliest_In].
Qed.

Lemma wf_draw (now : Q) (s : State) :
  wf s -> frames (win s) = [] -> canvasEl s <> None ->
  runKey (view s) <> O -> wf (draw (runKey (view s)) now s).
Proof.
  intros W Hf Hc Hr. unfold draw.
  set (pv := Qmin (now - startTimeRef (refs s)) STORY_DURATION / STORY_DURATION).
  set (s1 := if Qltb 120 (now - lastProgressUpdate (refs s))
             then observe (Published now pv)
                    (with_refs (set_lastProgressUpdate now)
                       (with_view (set_progress pv) s))
             else s).
  assert (W1 : wf s1 /\ frames (win s1) = [] /\ canvasEl s1 = canvasEl s /\
               runKey (view s1) = runKey (view s) /\
               nextFrameId (win s1) = nextFrameId (win s)).
  { unfold s1. destruct (Qltb 120 _);
      [|split; [exact W | repeat split; (assumption || reflexivity)]].
    split; [|repeat split; simpl; (assumption || reflexivity)].
    revert W. apply wf_same; try reflexivity; [apply incl_refl|].
    simpl. intros t r [E|H]; [discriminate E | exact H]. }
  destruct W1 as (W1 & F1 & C1 & R1 & N1).
  fold pv. fold s1.
  destruct (Qltb (Qmin (now - startTimeRef (refs s)) STORY_DURATION)
              STORY_DURATION).
  - unfold requestAnimationFrame. destruct W1 as [A1 A2 A3 A4 A5 A6].
    constructor; simpl; try assumption.
    + right. exists (nextFrameId (win s1)). cbn. rewrite F1, C1, R1.
      repeat split; assumption.
    + discriminate.
  - assert (W2 := wf_setIsComplete true s1 W1). revert W2.
    apply wf_same; try reflexivity; [apply incl_refl|].
    simpl. intros t r [E|H]; [discriminate E | exact H].
Qed.

Lemma wf_animationFrame (now : Q) (s : State) :
  wf s -> wf (animationFrame now s).
Proof.
  intro W. unfold animationFrame.
  destruct (wf_frames s W) as [E|(id & Hid & E & Ea & Hc & Hr)]; rewrite E.
  - simpl. revert W. apply wf_same; try reflexivity;
      [apply incl_refl | tauto | now rewrite E].
  - simpl.
    assert (W0 : wf (with_win (set_frames []) s)).
    { destruct W as [W1 W2 W3 W4 W5 W6]. constructor; try assumption.
      now left. }
    apply (wf_draw now _ W0); [reflexivity | exact Hc | exact Hr].
Qed.

(** The schedule of a run, spelled out: the offsets increase. *)
Lemma sched_unfolded (T : Q) (r base : nat) :
  sched T r base
  = [ mkTimer base (T + 0) (SetPhase intro) r;
      mkTimer (1 + base) (T + 6800) (SetPhase hint) r;
      mkTimer (2 + base) (T + 13600) (SetPhase manifest) r;
      mkTimer (3 + base) (T + 19800) (SetPhase escalate) r;
      mkTimer (4 + base) (T + 24400) (SetPhase scare) r;
      mkTimer (5 + base) (T + STORY_DURATION) (SetPhase aftermath) r;
      mkTimer (6 + base) (T + (STORY_DURATION + 60)) Finish r ].
Proof. reflexivity. Qed.

Lemma in_sched_run (T : Q) (r base : nat) (t : Timer) :
  In t (sched T r base) -> timer_run t = r /\ In (timer_id t) (seq base 7).
Proof.
  unfold sched, plan. simpl. intro H.
  repeat (destruct H as [<-|H]; [simpl; tauto|]). contradiction.
Qed.

Lemma retire_retired (s : State) :
  audio_ok s ->
  Forall retired (retire (audioStateRef (refs s)) (contexts (win s))).
Proof.
  unfold audio_ok. destruct (audioStateRef (refs s)) as [id|]; simpl.
  - intros (old & cur & E & Hid & Hc & Ho). rewrite E.
    rewrite !map_app, Forall_app. split.
    + rewrite map_map. apply Forall_map. revert Ho. apply Forall_impl.
      intros c Hcl. destruct (Nat.eqb (ctx_id c) id) eqn:Ec; simpl;
        rewrite Ec; [split; reflexivity | exact Hcl].
    + subst id. simpl. rewrite Nat.eqb_refl. simpl. rewrite Nat.eqb_refl.
      repeat constructor.
  - intros ->. constructor.
Qed.


Lemma wf_beginStory (now : Q) (s : State) : wf s -> wf (beginStory now s).
Proof.
  intro W. rewrite (beginStory_eq now s (wf_tracked s W) (wf_frames s W)).
  constructor; simpl.
  - intros t Hin. simpl in Hin. now apply in_sched_run in Hin.
  - intros t Hin. now apply in_sched_run in Hin.
  - intros t r [].
  - destruct (canvasEl s) as [c|] eqn:E; [|now left].
    right. exists (nextFrameId (win s)). simpl.
    repeat split; try reflexivity; try discriminate.
    apply (wf_nextFrame s W).
  - destruct (canvasEl s); [discriminate | apply (wf_nextFrame s W)].
  - unfold audio_ok. simpl. do 2 eexists. split; [reflexivity|].
    repeat split. apply retire_retired, (wf_audio s W).
Qed.

Lemma wf_step (s : State) (e : Event) : wf s -> wf (step s e).
Proof.
  intro W. unfold step.
  assert (W1 : wf (advance (event_time e) s)) by now apply wf_advanceN.
  destruct e as [now|now|now].
  - destruct (negb _ || _); [now apply wf_beginStory | exact W1].
  - now apply wf_animationFrame.
  - exact W1.
Qed.

Lemma wf_run (es : list Event) : forall s, wf s -> wf (run es s).
Proof.
  induction es as [|e es IH]; intros s W; simpl; [exact W|].
  apply IH, wf_step, W.
Qed.

(** ** A new run supersedes the one before *)








(** ** One run, from its [beginStory] on *)

(** The offsets of the timers of a run, in the order of their scheduling. *)
Definition OFFSETS : list Q := map snd plan.

Definition off (k : nat) : Q := nth k OFFSETS 0.

(** The phase once the first [k] timers of the run have fired. *)
Definition phaseAfter (k : nat) : Phase :=
  nth (pred k) (map phase_ PHASE_SEQUENCE) aftermath.

Lemma Qle_bool_shift (T a b : Q) : a <= b -> Qle_bool (T + a) (T + b) = true.
Proof. intro H. apply Qle_bool_iff. lra. Qed.

Lemma earliest_head (t : Timer) (rest : list Timer) :
  (forall u, In u rest -> timer_due t <= timer_due u) ->
  earliest (t :: rest) = Some t.
Proof.
  intro H. simpl. destruct (earliest rest) as [u|] eqn:E; [|reflexivity].
  apply earliest_In in E. apply H, Qle_bool_iff in E. now rewrite E.
Qed.

Ltac decide_ids :=
  repeat match goal with
    | |- context [Nat.eqb ?a ?a] => rewrite (Nat.eqb_refl a)
    | |- context [Nat.eqb ?a ?b] =>
        let H := fresh in
        assert (H : Nat.eqb a b = false) by (apply Nat.eqb_neq; lia);
        rewrite H; clear H
    end.

Section Run.

Variables (T : Q) (r base : nat).

Let timersOfRun : list Timer := sched T r base.

(** The first [k] timers of the run have fired, the others are pending, and
    the run is not complete. *)
Record Shape (k : nat) (s : State) : Prop := mkShape {
  sh_timers : timers (win s) = skipn k timersOfRun;
  sh_incomplete : isComplete (view s) = false;
  sh_phase : phase (view s) = phaseAfter k;
  sh_phaseRef : phaseRef (refs s) = phaseAfter k;
  sh_fired : firedOf (trace s) = rev (firstn k timersOfRun);
  sh_tracked : tracked s
}.

(** The run is complete: nothing is pending, and the timers that fired are
    the six phase changes, with or without the fallback. *)
Record Done (s : State) : Prop := mkDone {
  dn_timers : timers (win s) = [];
  dn_complete : isComplete (view s) = true;
  dn_phase : phase (view s) = aftermath;
  dn_phaseRef : phaseRef (refs s) = aftermath;
  dn_fired : exists k, (k = 6 \/ k = 7)%nat /\
                       firedOf (trace s) = rev (firstn k timersOfRun)
}.

Lemma shape_next (k : nat) (s : State) :
  (k <= 6)%nat -> Shape k s ->
  exists t, nth_error timersOfRun k = Some t /\
            timer_due t = T + off k /\
            earliest (timers (win s)) = Some t.
Proof.
  intros Hk [E _ _ _ _ _]. rewrite E. unfold timersOfRun, sched, plan.
  do 7 (destruct k as [|k]; [eexists; split; [reflexivity|]; split;
                             [reflexivity|]; simpl (skipn _ _);
                             apply earliest_head; intros u Hu; simpl in Hu;
                             repeat (destruct Hu as [<-|Hu];
                                     [simpl; unfold STORY_DURATION; lra|]);
                             contradiction|]).
  lia.
Qed.

Lemma fire_shape (k : nat) (s : State) (t : Timer) :
  (k < 6)%nat -> Shape k s -> nth_error timersOfRun k = Some t ->
  Shape (S k) (fire t s).
Proof.
  intros Hk [E I P R F Tr] Ht. unfold tracked in Tr. rewrite E in Tr.
  unfold timersOfRun, sched, plan in *.
  do 6 (destruct k as [|k];
        [ simpl in Ht; inversion Ht; subst t; clear Ht;
          unfold fire; cbn -[Nat.eqb];
          constructor; cbn -[Nat.eqb];
          [ rewrite E; cbn -[Nat.eqb]; decide_ids; reflexivity
          | exact I | reflexivity | reflexivity
          | rewrite F; reflexivity
          | intros u Hu; cbn -[Nat.eqb] in Hu; rewrite E in Hu;
            cbn -[Nat.eqb] in Hu; revert Hu; decide_ids; cbn -[Nat.eqb];
            intro Hu; apply Tr; simpl; tauto ]
        | ]).
  lia.
Qed.

Lemma fire_done (s : State) (t : Timer) :
  Shape 6 s -> nth_error timersOfRun 6 = Some t -> Done (fire t s).
Proof.
  intros [E I P R F Tr] Ht.
  unfold timersOfRun, sched, plan in *.
  simpl in Ht; inversion Ht; subst t; clear Ht.
  unfold fire; cbn -[Nat.eqb]. unfold setIsComplete; cbn -[Nat.eqb].
  rewrite I. cbn -[Nat.eqb].
  rewrite clearTimeouts_eq. cbn -[Nat.eqb]. rewrite E. cbn -[Nat.eqb].
  decide_ids. cbn -[Nat.eqb].
  constructor; cbn -[Nat.eqb]; try reflexivity; try assumption.
  exists 7%nat. split; [now right|]. rewrite F. reflexivity.
Qed.

Lemma advanceN_shape (now : Q) (n : nat) :
  forall k s,
    (k <= 6)%nat -> n = (7 - k)%nat -> Shape k s ->
    (exists k', (k <= k' <= 6)%nat /\ Shape k' (advanceN n now s) /\
                (k' = k \/ off (pred k') <= now - T) /\ now - T < off k')
    \/ (Done (advanceN n now s) /\ off 6 <= now - T).
Proof.
  induction n as [|n IH]; intros k s Hk Hn Sh; [lia|].
  destruct (shape_next k s Hk Sh) as (t & Ht & Hd & He).
  simpl. rewrite He, Hd.
  destruct (Qle_bool (T + off k) now) eqn:Due.
  - apply Qle_bool_iff in Due.
    destruct (Nat.eq_dec k 6) as [->|Hk6].
    + right. assert (n = O) by lia. subst n. simpl.
      split; [now apply fire_done | lra].
    + assert (Sh' : Shape (S k) (fire t s)) by (apply fire_shape; [lia|assumption..]).
      destruct (IH (S k) (fire t s)) as [(k' & Hk' & S' & L & U)|D];
        [lia | lia | exact Sh' | | now right].
      left. exists k'. split; [lia|]. split; [exact S'|]. split; [|exact U].
      right. destruct L as [->|L]; [simpl; lra | exact L].
  - apply Qle_bool_false in Due.
    left. exists k. split; [lia|]. split; [exact Sh|]. split; [now left | lra].
Qed.

Lemma advance_done (now : Q) (s : State) : Done s -> advance now s = s.
Proof.
  intros [E _ _ _ _]. unfold advance. rewrite E. reflexivity.
Qed.

Lemma shape_length (k : nat) (s : State) :
  (k <= 6)%nat -> Shape k s -> List.length (timers (win s)) = (7 - k)%nat.
Proof.
  intros Hk [E _ _ _ _ _]. rewrite E. unfold timersOfRun, sched, plan.
  rewrite length_skipn. reflexivity.
Qed.

End Run.

(** The publications of a run are spaced by more than 120 ms. *)
Fixpoint spaced (l : list (Q * Q)) : Prop :=
  match l with
  | [] => True
  | p :: rest => Forall (fun q => 120 < fst p - fst q) rest /\ spaced rest
  end.

Section RunInvariant.

Variables (T : Q) (r base : nat) (cvo : option Canvas).

(** How far the timers have fired, against the elapsed time [t]. *)
Definition timed (k : nat) (t : Q) : Prop :=
  match k with
  | O => t == 0
  | S j => off j <= t /\ t < off k
  end.

Record PubsOK (now : Q) (s : State) : Prop := mkPubsOK {
  pb_each :
    Forall (fun p => T <= fst p /\ fst p <= now /\
                     fst p <= lastProgressUpdate (refs s) /\
                     snd p = progressOf (fst p - T))
      (pubs (trace s));
  pb_spaced : spaced (pubs (trace s));
  pb_latest : progress (view s) = latest (pubs (trace s))
}.

Definition framesRunning (s : State) : Prop :=
  match cvo with
  | Some _ => exists id, frames (win s) = [mkFrame id r]
  | None => frames (win s) = []
  end.

Definition framesDone (s : State) : Prop :=
  frames (win s) = [] \/
  (cvo <> None /\ exists id, frames (win s) = [mkFrame id r]).

Record RunInv (now : Q) (s : State) : Prop := mkRunInv {
  ri_canvas : canvasEl s = cvo;
  ri_runKey : runKey (view s) = r;
  ri_start : cvo <> None -> startTimeRef (refs s) = T;
  ri_time : T <= now;
  ri_pubs : PubsOK now s;
  ri_state :
    (exists k, (k <= 6)%nat /\ Shape T r base k s /\ timed k (now - T) /\
               framesRunning s)
    \/ (Done T r base s /\ STORY_DURATION <= now - T /\ framesDone s)
}.

Lemma pubs_later (now now' : Q) (s s' : State) :
  now <= now' -> quiet s s' -> PubsOK now s -> PubsOK now' s'.
Proof.
  intros L Qt [E S P]. constructor.
  - rewrite (q_pubs _ _ Qt), (q_lastUpdate _ _ Qt). revert E.
    apply Forall_impl.
    intros p (A & B & C & D). repeat split; try assumption. lra.
  - now rewrite (q_pubs _ _ Qt).
  - now rewrite (q_pubs _ _ Qt), (q_progress _ _ Qt).
Qed.

Lemma advance_inv (now now' : Q) (s : State) :
  now <= now' -> RunInv now s -> RunInv now' (advance now' s).
Proof.
  intros L [C K S Tm P St].
  assert (Qt := advance_quiet now' s).
  assert (P' := pubs_later now now' s _ L Qt P).
  destruct St as [(k & Hk & Sh & Td & Fr)|(D & Hd & Fr)].
  - unfold advance in *. rewrite (shape_length T r base k s Hk Sh) in *.
    destruct (advanceN_shape T r base now' _ k s Hk eq_refl Sh)
      as [(k' & Hk' & Sh' & Lo & Up)|(D & Hd)].
    + constructor;
        [ destruct Qt; congruence | destruct Qt; congruence
        | intro N; rewrite (q_startTime _ _ Qt); auto
        | lra | exact P' |].
      left. exists k'. split; [lia|]. split; [exact Sh'|]. split.
      * destruct k' as [|j].
        -- exfalso. assert (k = O) by lia. subst k. simpl in Td.
           unfold off in Up. simpl in Up. lra.
        -- split; [|exact Up]. destruct Lo as [E|Lo]; [|exact Lo].
           subst k. destruct Td as [Td _]. lra.
      * unfold framesRunning in *. now rewrite (q_frames _ _ Qt).
    + constructor;
        [ destruct Qt; congruence | destruct Qt; congruence
        | intro N; rewrite (q_startTime _ _ Qt); auto
        | lra | exact P' |].
      right. split; [exact D|]. split.
      * unfold off in Hd. simpl in Hd. unfold STORY_DURATION in *. lra.
      * unfold framesRunning, framesDone in *. rewrite (q_frames _ _ Qt).
        destruct cvo; [right; split; [discriminate | exact Fr] | now left].
  - rewrite (advance_done T r base now' s D).
    constructor; try assumption;
      [ lra
      | apply (pubs_later now now' s s L (quiet_refl s) P)
      | right; split; [exact D | split; [lra | exact Fr]] ].
Qed.

Lemma setIsComplete_first (s : State) :
  isComplete (view s) = false -> tracked s ->
  setIsComplete true s
  = mkState (set_isComplete true (view s)) (set_timeoutsRef [] (refs s))
      (set_timers [] (win s)) (canvasEl s) (trace s).
Proof.
  intros I Tr. unfold setIsComplete. rewrite I. cbn [Bool.eqb negb andb].
  rewrite clearTimeouts_eq. cbn [view refs win canvasEl trace with_view].
  now rewrite (tracked_cleared _ Tr).
Qed.

(** The cells the shape of a run reads. *)
Record sameCore (s s' : State) : Prop := mkSameCore {
  sc_phase : phase (view s') = phase (view s);
  sc_complete : isComplete (view s') = isComplete (view s);
  sc_runKey : runKey (view s') = runKey (view s);
  sc_phaseRef : phaseRef (refs s') = phaseRef (refs s);
  sc_timeouts : timeoutsRef (refs s') = timeoutsRef (refs s);
  sc_startTime : startTimeRef (refs s') = startTimeRef (refs s);
  sc_timers : timers (win s') = timers (win s);
  sc_canvas : canvasEl s' = canvasEl s;
  sc_fired : firedOf (trace s') = firedOf (trace s)
}.

Lemma shape_core (k : nat) (s s' : State) :
  sameCore s s' -> Shape T r base k s -> Shape T r base k s'.
Proof.
  intros Co [E I P R F Tr]. assert (Co' := Co). destruct Co'.
  constructor; try congruence.
  unfold tracked in *.
  rewrite (sc_timers _ _ Co), (sc_timeouts _ _ Co). exact Tr.
Qed.

Lemma done_core (s s' : State) :
  sameCore s s' -> Done T r base s -> Done T r base s'.
Proof.
  intros Co [E I P R (k & F)]. assert (Co' := Co). destruct Co'.
  constructor; try congruence.
  exists k. now rewrite (sc_fired _ _ Co).
Qed.

(** The first half of [draw]: the throttled [setProgress]. *)
Definition published (now : Q) (s : State) : State :=
  let pv := Qmin (now - startTimeRef (refs s)) STORY_DURATION / STORY_DURATION in
  if Qltb 120 (now - lastProgressUpdate (refs s))
  then observe (Published now pv)
         (with_refs (set_lastProgressUpdate now)
            (with_view (set_progress pv) s))
  else s.

Lemma published_core (now : Q) (s : State) : sameCore s (published now s).
Proof.
  unfold published. destruct (Qltb 120 _); constructor; reflexivity.
Qed.

Lemma published_frames (now : Q) (s : State) :
  win (published now s) = win s.
Proof. unfold published. destruct (Qltb 120 _); reflexivity. Qed.

Lemma published_pubs (now : Q) (s : State) :
  startTimeRef (refs s) = T -> T <= now ->
  PubsOK now s -> PubsOK now (published now s).
Proof.
  intros St Tm [E S P]. unfold published. rewrite St.
  destruct (Qltb 120 _) eqn:Th; [|now constructor].
  apply Qltb_true in Th. constructor; simpl.
  - constructor.
    + simpl. repeat split; lra.
    + revert E. apply Forall_impl. intros p (A & B & C & D).
      repeat split; assumption.
  - split; [|exact S]. revert E. apply Forall_impl.
    intros p (A & B & C & D). simpl. lra.
  - reflexivity.
Qed.

Lemma draw_eq (run : nat) (now : Q) (s : State) :
  draw run now s
  = let s1 := published now s in
    if Qltb (Qmin (now - startTimeRef (refs s)) STORY_DURATION) STORY_DURATION
    then with_refs (set_animationRef (Some (nextFrameId (win s1))))
           (with_win (fun _ => snd (requestAnimationFrame run (win s1))) s1)
    else observe (Completed now) (setIsComplete true s1).
Proof. reflexivity. Qed.

Lemma pubs_same (now : Q) (s s' : State) :
  pubs (trace s') = pubs (trace s) ->
  lastProgressUpdate (refs s') = lastProgressUpdate (refs s) ->
  progress (view s') = progress (view s) ->
  PubsOK now s -> PubsOK now s'.
Proof.
  intros E1 E2 E3 [E S P]. constructor; rewrite ?E1, ?E2, ?E3; assumption.
Qed.

(** A frame of a run that is not complete, on a canvas. *)
Lemma draw_running (now : Q) (k : nat) (s : State) :
  (k <= 6)%nat -> Shape T r base k s -> timed k (now - T) ->
  canvasEl s = cvo -> cvo <> None -> runKey (view s) = r ->
  startTimeRef (refs s) = T -> T <= now -> PubsOK now s ->
  frames (win s) = [] ->
  RunInv now (draw r now s) /\
  ((now - T < STORY_DURATION /\ isComplete (view (draw r now s)) = false /\
    exists f, frames (win (draw r now s)) = [f]) \/
   (STORY_DURATION <= now - T /\ isComplete (view (draw r now s)) = true /\
    frames (win (draw r now s)) = [])).
Proof.
  intros Hk Sh Td C N K St Tm P Fr. rewrite draw_eq. cbv zeta.
  assert (Co := published_core now s).
  assert (P1 := published_pubs now s St Tm P).
  assert (W1 := published_frames now s).
  assert (Sh1 := shape_core k _ _ Co Sh).
  set (s1 := published now s) in *.
  rewrite St.
  destruct (Qltb (Qmin (now - T) STORY_DURATION) STORY_DURATION) eqn:Cl.
  - split;
      [|left; apply Qltb_true in Cl; split;
        [ destruct (Q.min_spec (now - T) STORY_DURATION) as [[A B]|[A B]];
          rewrite B in Cl; lra
        | split; [simpl; destruct Co, Sh; congruence
                 | simpl; rewrite W1, Fr; simpl; eauto] ]].
    constructor; simpl.
    + destruct Co; congruence.
    + destruct Co; congruence.
    + intros _. destruct Co; congruence.
    + exact Tm.
    + revert P1. apply pubs_same; reflexivity.
    + left. exists k. split; [exact Hk|]. split.
      * revert Sh1. apply shape_core. constructor; reflexivity.
      * split; [exact Td|]. unfold framesRunning. 
        destruct cvo; [|congruence]. simpl. rewrite W1, Fr. simpl. eauto.
  - apply Qltb_false in Cl.
    assert (Hd : STORY_DURATION <= now - T).
    { destruct (Q.min_spec (now - T) STORY_DURATION) as [[A B]|[A B]];
        [rewrite B in Cl; lra | exact A]. }
    assert (k = 6)%nat.
    { unfold timed in Td. unfold STORY_DURATION in Hd.
      destruct k as [|k]; [lra|]. destruct Td as [_ Up].
      do 5 (destruct k as [|k];
            [unfold off in Up; simpl in Up; unfold STORY_DURATION in Up; lra|]).
      lia. }
    subst k. destruct Sh1 as [E I Ph R F Tr].
    rewrite (setIsComplete_first s1 I Tr).
    split; [|right; split; [exact Hd|]; split; [reflexivity|];
             simpl; rewrite W1; exact Fr].
    constructor; simpl.
    + destruct Co; congruence.
    + destruct Co; congruence.
    + intros _. destruct Co; congruence.
    + exact Tm.
    + revert P1. apply pubs_same; reflexivity.
    + right. split; [|split; [exact Hd|]].
      * constructor; simpl; try assumption; try reflexivity.
        exists 6%nat. split; [now left | exact F].
      * left. simpl. now rewrite W1.
Qed.

(** A frame once the run is complete: nothing is requested any more. *)
Lemma draw_done (now : Q) (s : State) :
  Done T r base s -> STORY_DURATION <= now - T ->
  canvasEl s = cvo -> cvo <> None -> runKey (view s) = r ->
  startTimeRef (refs s) = T -> T <= now -> PubsOK now s ->
  frames (win s) = [] ->
  RunInv now (draw r now s) /\
  nextFrameId (win (draw r now s)) = nextFrameId (win s) /\
  isComplete (view (draw r now s)) = true /\
  frames (win (draw r now s)) = [].
Proof.
  intros D Hd C N K St Tm P Fr. rewrite draw_eq. cbv zeta.
  assert (Co := published_core now s).
  assert (P1 := published_pubs now s St Tm P).
  assert (W1 := published_frames now s).
  assert (D1 := done_core _ _ Co D).
  set (s1 := published now s) in *.
  rewrite St.
  assert (Cl : Qltb (Qmin (now - T) STORY_DURATION) STORY_DURATION = false).
  { apply Qltb_false. rewrite Q.min_r by exact Hd. apply Qle_refl. }
  rewrite Cl. unfold setIsComplete. rewrite (dn_complete _ _ _ _ D1). simpl.
  split; [|split; [now rewrite W1|]; split; [reflexivity|];
           simpl; rewrite W1; exact Fr].
  constructor; simpl.
  - destruct Co; congruence.
  - destruct Co; congruence.
  - intros _. destruct Co; congruence.
  - exact Tm.
  - revert P1. apply pubs_same; reflexivity.
  - right. split; [|split; [exact Hd|]].
    + destruct D1 as [E I Ph R F].
      constructor; simpl; try assumption; reflexivity.
    + left. simpl. now rewrite W1.
Qed.

(** What a frame leaves: either the run goes on, with one request pending,
    or it is complete, with none. *)
Definition frameOutcome (now : Q) (s : State) : Prop :=
  (now - T < STORY_DURATION /\ isComplete (view s) = false /\
   exists f, frames (win s) = [f]) \/
  (STORY_DURATION <= now - T /\ isComplete (view s) = true /\
   frames (win s) = []).

Lemma frame_inv (now : Q) (s : State) :
  RunInv now s ->
  RunInv now (animationFrame now s) /\
  (cvo <> None -> frameOutcome now (animationFrame now s)) /\
  (isComplete (view s) = true ->
   nextFrameId (win (animationFrame now s)) = nextFrameId (win s) /\
   isComplete (view (animationFrame now s)) = true).
Proof.
  intros [C K S Tm P St]. unfold animationFrame.
  assert (Co : sameCore s (with_win (set_frames []) s))
    by (constructor; reflexivity).
  assert (P0 : PubsOK now (with_win (set_frames []) s))
    by (revert P; apply pubs_same; reflexivity).
  assert (Idle : frames (win s) = [] ->
                 RunInv now (with_win (set_frames []) s)).
  { intro E. constructor; try assumption.
    destruct St as [(k & Hk & Sh & Td & Fr)|(D & Hd & Fr)].
    - left. exists k. split; [exact Hk|]. split; [now apply (shape_core k s)|].
      split; [exact Td|]. unfold framesRunning in *. simpl.
      destruct cvo; [|reflexivity]. destruct Fr as [id Fr]. congruence.
    - right. split; [now apply (done_core s)|]. split; [exact Hd|]. now left. }
  destruct St as [(k & Hk & Sh & Td & Fr)|(D & Hd & Fr)].
  - assert (I := sh_incomplete _ _ _ _ _ Sh).
    unfold framesRunning in Fr. destruct cvo as [c|] eqn:Ec.
    + destruct Fr as [id Fr]. rewrite Fr. simpl.
      rewrite <- Ec in *.
      destruct (draw_running now k (with_win (set_frames []) s)) as [R O];
        try assumption.
      * now apply (shape_core k s).
      * rewrite Ec. discriminate.
      * apply S. rewrite Ec. discriminate.
      * reflexivity.
      * split; [exact R|]. split; [intros _; exact O | congruence].
    + rewrite Fr. simpl. split; [apply Idle, Fr|]. split; congruence.
  - destruct Fr as [Fr|(N & id & Fr)]; rewrite Fr; simpl.
    + split; [apply Idle, Fr|]. split; [|intro I; split; [reflexivity|exact I]].
      intros _. right. split; [exact Hd|]. split; [|reflexivity].
      apply (dn_complete _ _ _ _ D).
    + destruct (draw_done now (with_win (set_frames []) s))
        as (R & Nx & I & F); try assumption; auto.
      * now apply (done_core s).
      * split; [exact R|]. split; [|intros _; split; [exact Nx | exact I]].
        intros _. right. auto.
Qed.

Lemma step_inv (now : Q) (s : State) (e : Event) :
  orderedb now [e] = true -> RunInv now s -> RunInv (event_time e) (step s e).
Proof.
  intros O I. unfold step.
  destruct e as [t|t|t]; simpl in O; [discriminate| |];
    rewrite andb_true_r in O; apply Qle_bool_iff in O; simpl.
  - apply frame_inv, (advance_inv now); assumption.
  - apply (advance_inv now); assumption.
Qed.

Lemma run_inv (es : list Event) :
  forall now s,
    orderedb now es = true -> RunInv now s ->
    RunInv (lastTime now es) (run es s).
Proof.
  induction es as [|e es IH]; intros now s O I; simpl; [exact I|].
  assert (O1 : orderedb now [e] = true /\ orderedb (event_time e) es = true).
  { destruct e; simpl in *; [discriminate| |];
      apply andb_true_iff in O; destruct O as [A B];
      rewrite A; auto. }
  destruct O1 as [O1 O2].
  apply IH; [exact O2 | now apply (step_inv now)].
Qed.

End RunInvariant.

(** ** The claims on one run *)

Lemma begin_inv (T : Q) (s : State) :
  wf s ->
  RunInv T (S (runKey (view s))) (nextTimerId (win s)) (canvasEl s) T
    (beginStory T s).
Proof.
  intro W. rewrite (beginStory_eq T s (wf_tracked s W) (wf_frames s W)).
  constructor; simpl; try reflexivity.
  - intro N. destruct (canvasEl s); [reflexivity | congruence].
  - apply Qle_refl.
  - constructor; simpl; [constructor | exact I | reflexivity].
  - left. exists O. split; [lia|]. split; [|split].
    + constructor; simpl; try reflexivity.
      intros t Hin. simpl in Hin. now apply in_sched_run in Hin.
    + simpl. ring.
    + unfold framesRunning. simpl. destruct (canvasEl s); eauto.
Qed.







Lemma progressOf_monotone (a b : Q) : a <= b -> progressOf a <= progressOf b.
Proof.
  intro H. unfold progressOf, clampedOf, Qdiv.
  apply Qmult_le_compat_r; [now apply Q.min_le_compat_r | discriminate].
Qed.

Lemma progressOf_bounds (a : Q) :
  0 <= a -> 0 <= progressOf a /\ progressOf a <= 1.
Proof.
  intro H. unfold progressOf, clampedOf, STORY_DURATION.
  split.
  - apply Qle_shift_div_l; [reflexivity|].
    destruct (Q.min_spec a 30000) as [[_ E]|[_ E]]; rewrite E; lra.
  - apply Qle_shift_div_r; [reflexivity|].
    assert (M := Q.le_min_r a 30000). lra.
Qed.

Lemma orderedb_app (es1 es2 : list Event) :
  forall since,
    orderedb since (es1 ++ es2) = true ->
    orderedb since es1 = true /\ orderedb (lastTime since es1) es2 = true.
Proof.
  induction es1 as [|e es1 IH]; intros since H; simpl in *; [auto|].
  destruct e; [discriminate| |]; apply andb_true_iff in H;
    destruct H as [A B]; rewrite A; simpl; apply IH, B.
Qed.



Lemma draw_canvas (r : nat) (now : Q) (s : State) :
  canvasEl (draw r now s) = canvasEl s.
Proof.
  rewrite draw_eq. cbv zeta.
  assert (C := sc_canvas _ _ (published_core now s)).
  destruct (Qltb _ _); simpl; [exact C|].
  rewrite (q_canvas _ _ (setIsComplete_quiet true _)). exact C.
Qed.

Lemma animationFrame_canvas (now : Q) (s : State) :
  canvasEl (animationFrame now s) = canvasEl s.
Proof.
  unfold animationFrame.
  change (canvasEl s) with (canvasEl (with_win (set_frames []) s)).
  generalize (with_win (set_frames []) s).
  induction (frames (win s)) as [|f fs IH]; intro s0; simpl; [reflexivity|].
  rewrite IH. apply draw_canvas.
Qed.

Lemma step_canvas (s : State) (e : Event) :
  wf s -> canvasEl (step s e) = canvasEl s.
Proof.
  intro W. unfold step.
  assert (Qt := advance_quiet (event_time e) s).
  assert (W1 : wf (advance (event_time e) s)) by now apply wf_advanceN.
  destruct e as [now|now|now]; simpl in *.
  - destruct (negb _ || _).
    + rewrite (beginStory_eq now _ (wf_tracked _ W1) (wf_frames _ W1)). simpl.
      apply (q_canvas _ _ Qt).
    + apply (q_canvas _ _ Qt).
  - rewrite animationFrame_canvas. apply (q_canvas _ _ Qt).
  - apply (q_canvas _ _ Qt).
Qed.

Lemma run_canvas (es : list Event) :
  forall s, wf s -> canvasEl (run es s) = canvasEl s.
Proof.
  induction es as [|e es IH]; intros s W; simpl; [reflexivity|].
  rewrite IH by now apply wf_step. now apply step_canvas.
Qed.

(** Every state of a run, started by [beginStory] at [T] in a reachable
    state and followed by the events [es'], satisfies the invariant. *)
Lemma in_run (cv : option Canvas) (es : list Event) (T : Q) (es' : list Event) :
  orderedb T es' = true ->
  let s := run es (mounted cv) in
  RunInv T (S (runKey (view s))) (nextTimerId (win s)) cv
    (lastTime T es') (run es' (beginStory T s)).
Proof.
  intros O s.
  assert (W : wf s) by apply wf_run, wf_mounted.
  assert (C : canvasEl s = cv) by (unfold s; now rewrite run_canvas by apply wf_mounted).
  rewrite <- C at 1.
  apply run_inv; [exact O | now apply begin_inv].
Qed.

Section OnARun.

Variables (T : Q) (r base : nat) (cvo : option Canvas).



Lemma inv_complete (now : Q) (s : State) :
  RunInv T r base cvo now s ->
  (isComplete (view s) = true -> STORY_DURATION <= now - T) /\
  (STORY_DURATION + 60 <= now - T -> isComplete (view s) = true).
Proof.
  intros [_ _ _ _ _ [(k & Hk & [E I P R F Tr] & Td & _)|([E I P R F] & Hd & _)]].
  - split; [congruence|]. intro H. exfalso.
    unfold timed, off, OFFSETS, plan, PHASE_SEQUENCE in Td.
    cbn [map app snd at_ phase_] in Td. unfold STORY_DURATION in *.
    destruct k as [|k]; [lra|]. destruct Td as [_ Up].
    do 6 (destruct k as [|k]; [cbn [nth] in Up; lra|]). lia.
  - split; [intros _; exact Hd | intros _; exact I].
Qed.

Lemma done_run (es : list Event) :
  forall now s,
    orderedb now es = true -> RunInv T r base cvo now s ->
    isComplete (view s) = true ->
    isComplete (view (run es s)) = true /\
    nextFrameId (win (run es s)) = nextFrameId (win s).
Proof.
  induction es as [|e es IH]; intros now s O I C; simpl; [auto|].
  assert (O1 : orderedb now [e] = true /\ orderedb (event_time e) es = true).
  { destruct e; simpl in *; [discriminate| |];
      apply andb_true_iff in O; destruct O as [A B]; rewrite A; auto. }
  destruct O1 as [O1 O2].
  assert (I1 := step_inv T r base cvo now s e O1 I).
  assert (D : Done T r base s).
  { destruct I as [_ _ _ _ _ [(k & _ & Sh & _)|(D & _)]]; [|exact D].
    rewrite (sh_incomplete _ _ _ _ _ Sh) in C. discriminate. }
  assert (A : advance (event_time e) s = s) by apply (advance_done T r base), D.
  assert (S1 : isComplete (view (step s e)) = true /\
               nextFrameId (win (step s e)) = nextFrameId (win s)).
  { unfold step. rewrite A. destruct e as [t|t|t]; simpl in O1;
      [discriminate| |auto].
    simpl in A. rewrite andb_true_r in O1. apply Qle_bool_iff in O1.
    assert (It : RunInv T r base cvo t s).
    { rewrite <- A. now apply (advance_inv T r base cvo now). }
    destruct (frame_inv T r base cvo t s It) as (_ & _ & F).
    destruct (F C). auto. }
  destruct S1 as [C1 N1].
  destruct (IH _ _ O2 I1 C1) as [C2 N2]. split; [exact C2 | congruence].
Qed.

End OnARun.





(** C4.  In a run begun at [T]: the completion flag is never set before
    30000 ms have elapsed, and it is set once 30060 ms have (the fallback
    timer).  On a canvas, after an animation frame the flag is set exactly
    when the elapsed time of that frame has reached 30000 ms; then no frame
    request is pending, and otherwise exactly one is.  Once the flag is set
    it stays set for the rest of the run and no further animation frame is
    requested. *)
Theorem completion_at_duration :
  forall (cv : option Canvas) (es : list Event) (T : Q) (es1 es2 : list Event),
    orderedb T (es1 ++ es2) = true ->
    let s1 := run es1 (beginStory T (run es (mounted cv))) in
    let s2 := run es2 s1 in
    (isComplete (view s1) = true -> STORY_DURATION <= lastTime T es1 - T) /\
    (STORY_DURATION + 60 <= lastTime T es1 - T -> isComplete (view s1) = true) /\
    (forall es0 now,
       cv <> None -> es1 = es0 ++ [AnimationFrame now] ->
       (isComplete (view s1) = true <-> STORY_DURATION <= now - T) /\
       (isComplete (view s1) = true -> frames (win s1) = []) /\
       (isComplete (view s1) = false -> exists f, frames (win s1) = [f])) /\
    (isComplete (view s1) = true ->
     isComplete (view s2) = true /\
     nextFrameId (win s2) = nextFrameId (win s1)).
Proof.
  intros cv es T es1 es2 O s1 s2.
  destruct (orderedb_app es1 es2 T O) as [O1 O2].
  assert (I1 := in_run cv es T es1 O1). cbv zeta in I1. fold s1 in I1.
  destruct (inv_complete _ _ _ _ _ _ I1) as [A B].
  split; [exact A|]. split; [exact B|]. split.
  - intros es0 now N E.
    assert (O0 : orderedb T (es0 ++ [AnimationFrame now]) = true)
      by (rewrite <- E; exact O1).
    destruct (orderedb_app _ _ _ O0) as [Oa Ob].
    assert (I0 := in_run cv es T es0 Oa). cbv zeta in I0.
    simpl in Ob. rewrite andb_true_r in Ob. apply Qle_bool_iff in Ob.
    assert (Ia := advance_inv _ _ _ _ _ now _ Ob I0).
    destruct (frame_inv _ _ _ _ now _ Ia) as (_ & F & _).
    specialize (F N).
    assert (Es : s1 = animationFrame now
                        (advance now (run es0 (beginStory T (run es (mounted cv)))))).
    { unfold s1. rewrite E. unfold run. rewrite fold_left_app. reflexivity. }
    rewrite <- Es in F. unfold frameOutcome in F.
    destruct F as [(L & C & Fr)|(L & C & Fr)]; rewrite C.
    + split; [split; [discriminate | lra]|]. split; [discriminate | auto].
    + split; [tauto|]. split; [auto | discriminate].
  - intro C. apply (done_run _ _ _ _ es2 _ _ O2 I1 C).
Qed.

(** The theorem on the sample run, carried past its end. *)
Lemma completion_at_duration_witness :
  let s1 := run (demoRun ++ [AnimationFrame 25500; AnimationFrame 31001])
              (beginStory 1000 (run [] (mounted (Some demoCanvas)))) in
  let s2 := run [Tick 31100; AnimationFrame 31200] s1 in
  (isComplete (view s1) = true ->
   STORY_DURATION
   <= lastTime 1000 (demoRun ++ [AnimationFrame 25500; AnimationFrame 31001])
      - 1000) /\
  (STORY_DURATION + 60
   <= lastTime 1000 (demoRun ++ [AnimationFrame 25500; AnimationFrame 31001])
      - 1000 -> isComplete (view s1) = true) /\
  (forall es0 now,
     Some demoCanvas <> None ->
     demoRun ++ [AnimationFrame 25500; AnimationFrame 31001]
     = es0 ++ [AnimationFrame now] ->
     (isComplete (view s1) = true <-> STORY_DURATION <= now - 1000) /\
     (isComplete (view s1) = true -> frames (win s1) = []) /\
     (isComplete (view s1) = false -> exists f, frames (win s1) = [f])) /\
  (isComplete (view s1) = true ->
   isComplete (view s2) = true /\
   nextFrameId (win s2) = nextFrameId (win s1)).
Proof.
  exact (completion_at_duration (Some demoCanvas) [] 1000
           (demoRun ++ [AnimationFrame 25500; AnimationFrame 31001])
           [Tick 31100; AnimationFrame 31200] eq_refl).
Defined.

(** ** The scenario of the specification, on the model

    A run begun at 1000 ms on the sample canvas: 7000 ms in, the phase is
    hint; 24500 ms in, it is scare and the frame carries its 28 glitch bars;
    at the first frame past 30000 ms the run is complete, in aftermath, with
    no frame requested. *)
Example scenario_hint :
  phase (view (run [Tick 8000] (beginStory 1000 (mounted (Some demoCanvas)))))
  = hint.
Proof. vm_compute. reflexivity. Qed.

Example scenario_scare :
  let s := run [AnimationFrame 25500]
             (beginStory 1000 (mounted (Some demoCanvas))) in
  phaseRef (refs s) = scare /\
  List.length
    (p_bars (paintAt (fun _ => 0) (fun _ => 0) demoCanvas 25500
               (startTimeRef (refs s)) (phaseRef (refs s)) tenths))
  = 28%nat.
Proof. vm_compute. split; reflexivity. Qed.

Example scenario_complete :
  let s := run [AnimationFrame 31001]
             (beginStory 1000 (mounted (Some demoCanvas))) in
  isComplete (view s) = true /\ phase (view s) = aftermath /\
  frames (win s) = [] /\ timers (win s) = [].
Proof. vm_compute. repeat split; reflexivity. Qed.

(** A second [beginStory] in the middle of a run: the five timers still
    pending are replaced by the seven of the new run, the frame request is
    replaced, and the first audio context is stopped and closed. *)
Example restart_in_mid_run :
  let s := run [Click 1000; Tick 8000] (mounted (Some demoCanvas)) in
  let s1 := beginStory 8000 s in
  map timer_run (timers (win s)) = [1; 1; 1; 1; 1]%nat /\
  map timer_run (timers (win s1)) = [2; 2; 2; 2; 2; 2; 2]%nat /\
  frames (win s) = [mkFrame 1 1] /\ frames (win s1) = [mkFrame 2 2] /\
  map (fun c => (ctx_stopped c, ctx_closed c)) (contexts (win s1))
  = [(true, true); (false, false)].
Proof. vm_compute. repeat split; reflexivity. Qed.

(** * Further properties of the page

    ** The renderer: ranges of what a frame paints *)

Lemma boostAt_range (c m : Q) :
  inWindow c m = true -> 0.3 < boostAt c m /\ boostAt c m <= 0.65.
Proof.
  intro W. split; [now apply boostAt_above|].
  unfold boostAt. assert (0 <= Qabs (c - m)) by apply Qabs_nonneg.
  assert (0 <= Qabs (c - m) / 220) by (apply Qle_shift_div_l; lra).
  lra.
Qed.

Lemma zoomBoost_range (c : Q) : 0 <= zoomBoost c /\ zoomBoost c <= 0.65.
Proof.
  destruct (boost_fold_attained c JUMP_CUT_MOMENTS 0)
    as [[_ E]|[E|(m & _ & W & E)]];
    unfold zoomBoost, zoomBoostOver; rewrite E; try lra.
  destruct (boostAt_range c m W). lra.
Qed.

Lemma windows_disjoint (c m m' : Q) :
  In m JUMP_CUT_MOMENTS -> In m' JUMP_CUT_MOMENTS ->
  inWindow c m = true -> inWindow c m' = true -> m = m'.
Proof.
  intros Hm Hm' W W'. apply in_window_iff, Qabs_Qlt_condition in W.
  apply in_window_iff, Qabs_Qlt_condition in W'.
  simpl in Hm, Hm'.
  repeat (destruct Hm as [<-|Hm]; [|try contradiction]);
    repeat (destruct Hm' as [<-|Hm']; [|try contradiction]);
    try reflexivity; exfalso; lra.
Qed.

(** X1.  On every frame of a run (elapsed time not negative) the zoom stays
    between 1.12 and 2.22: the base zoom between 1.12 and 1.57, the boost
    between 0 and 0.65.  The windows of the four jump cuts do not overlap:
    a time is within 220 ms of at most one of them, and at a jump cut itself
    the boost is the full 0.65. *)
Theorem zoom_stays_in_range :
  forall (sin cos : Q -> Q) (cv : Canvas) (now elapsed : Q) (ph : Phase) (g : Rng),
    0 <= elapsed ->
    let c := clampedOf elapsed in
    let z := p_zoom (paint sin cos cv now elapsed ph g) in
    1.12 <= z /\ z <= 2.22 /\
    (1.12 <= zoomBase (progressOf elapsed) /\
     zoomBase (progressOf elapsed) <= 1.57) /\
    (0 <= zoomBoost c /\ zoomBoost c <= 0.65) /\
    (forall m m', In m JUMP_CUT_MOMENTS -> In m' JUMP_CUT_MOMENTS ->
       Qabs (c - m) < 220 -> Qabs (c - m') < 220 -> m = m') /\
    (forall m, In m JUMP_CUT_MOMENTS -> c == m -> zoomBoost c == 0.65).
Proof.
  intros sn cs cv now elapsed ph g H c z.
  destruct (progressOf_bounds elapsed H) as [P0 P1].
  destruct (zoomBoost_range c) as [B0 B1].
  assert (Z : z == zoomBase (progressOf elapsed) + zoomBoost c) by reflexivity.
  unfold zoomBase in *.
  split; [lra|]. split; [lra|]. split; [lra|]. split; [lra|]. split.
  - intros m m' Hm Hm' W W'. apply (windows_disjoint c); try assumption;
      now apply in_window_iff.
  - intros m Hm E.
    assert (W : inWindow c m = true).
    { apply in_window_iff. rewrite E.
      setoid_replace (m - m) with 0 by ring. reflexivity. }
    assert (U := boost_fold_upper c JUMP_CUT_MOMENTS 0 m Hm W).
    fold (zoomBoostOver JUMP_CUT_MOMENTS c) in U. fold (zoomBoost c) in U.
    assert (A : boostAt c m == 0.65).
    { unfold boostAt. rewrite E. setoid_replace (m - m) with 0 by ring.
      reflexivity. }
    lra.
Qed.

(** The theorem at the first jump cut, 6200 ms into the run. *)
Lemma zoom_stays_in_range_witness :
  let c := clampedOf 6200 in
  let z := p_zoom (paint (fun _ => 0) (fun _ => 0) demoCanvas 7200 6200 hint
                     tenths) in
  1.12 <= z /\ z <= 2.22 /\
  (1.12 <= zoomBase (progressOf 6200) /\ zoomBase (progressOf 6200) <= 1.57) /\
  (0 <= zoomBoost c /\ zoomBoost c <= 0.65) /\
  (forall m m', In m JUMP_CUT_MOMENTS -> In m' JUMP_CUT_MOMENTS ->
     Qabs (c - m) < 220 -> Qabs (c - m') < 220 -> m = m') /\
  (forall m, In m JUMP_CUT_MOMENTS -> c == m -> zoomBoost c == 0.65).
Proof.
  apply (zoom_stays_in_range (fun _ => 0) (fun _ => 0) demoCanvas 7200 6200
           hint tenths).
  discriminate.
Defined.

(** X2.  With sine and cosine between -1 and 1, the camera of a frame is
    never shifted by more than the shake amplitude of the phase
    horizontally (at most 12) and 0.6 times that vertically (at most 7.2),
    and the chair never rocks by more than the amplitude of the phase, at
    most 14 degrees. *)
Theorem shake_and_rock_bounded :
  forall (sin cos : Q -> Q) (cv : Canvas) (now elapsed : Q) (ph : Phase)
         (g : Rng),
    (forall x, - (1) <= sin x /\ sin x <= 1) ->
    (forall x, - (1) <= cos x /\ cos x <= 1) ->
    let f := paint sin cos cv now elapsed ph g in
    (Qabs (p_xShake f) <= shakeFactor ph /\ shakeFactor ph <= 12) /\
    (Qabs (p_yShake f) <= 0.6 * shakeFactor ph /\
     0.6 * shakeFactor ph <= 7.2) /\
    (Qabs (p_rock f) <= rockAmplitude ph /\ rockAmplitude ph <= 14).
Proof.
  intros sin cos cv now elapsed ph g sin_range cos_range f.
  assert (S : 0 < shakeFactor ph /\ shakeFactor ph <= 12)
    by (destruct ph; split; reflexivity || discriminate).
  assert (R : 0 < rockAmplitude ph /\ rockAmplitude ph <= 14)
    by (destruct ph; split; reflexivity || discriminate).
  destruct S as [S0 S1], R as [R0 R1].
  destruct (sin_range (now * 0.012)) as [A0 A1].
  destruct (cos_range (now * 0.009)) as [B0 B1].
  destruct (sin_range (now * 0.0025)) as [C0 C1].
  assert (K : forall a k : Q, - (1) <= a -> a <= 1 -> 0 < k -> Qabs (a * k) <= k).
  { intros a k L1 L2 Lk. apply Qabs_Qle_condition. split; nra. }
  split; [split; [apply K; assumption | exact S1]|].
  split; [split; [|lra] | split; [apply K; assumption | exact R1]].
  subst f. cbn [p_yShake paint].
  setoid_replace (cos (now * 0.009) * shakeFactor ph * 0.6)
    with (cos (now * 0.009) * (0.6 * shakeFactor ph)) by ring.
  apply K; try assumption. lra.
Qed.

(** The theorem with a sine stuck at 1 and a cosine stuck at -1. *)
Lemma shake_and_rock_bounded_witness :
  let f := paint (fun _ => 1) (fun _ => - (1)) demoCanvas 25500 24500 scare
             tenths in
  (Qabs (p_xShake f) <= shakeFactor scare /\ shakeFactor scare <= 12) /\
  (Qabs (p_yShake f) <= 0.6 * shakeFactor scare /\
   0.6 * shakeFactor scare <= 7.2) /\
  (Qabs (p_rock f) <= rockAmplitude scare /\ rockAmplitude scare <= 14).
Proof.
  apply (shake_and_rock_bounded (fun _ => 1) (fun _ => - (1)) demoCanvas
           25500 24500 scare tenths).
  - intros _. split; discriminate.
  - intros _. split; discriminate.
Defined.

(** X3.  Every glitch bar of a frame starts between the top and the bottom
    edge of the canvas and is between 3 and 6 high, so it reaches less than
    6 below the bottom edge; and it is at most 0.12 of the canvas wide. *)
Theorem glitch_bars_size :
  forall (sin cos : Q -> Q) (cv : Canvas) (now elapsed : Q) (ph : Phase) (g : Rng),
    unit_samples g ->
    0 <= canvas_width cv -> 0 <= canvas_height cv ->
    0 <= devicePixelRatio cv ->
    forall b, In b (p_bars (paint sin cos cv now elapsed ph g)) ->
      (0 <= barY b /\ barY b <= logicalHeight cv) /\
      (3 <= barHeight b /\ barHeight b < 6) /\
      barY b + barHeight b < logicalHeight cv + 6 /\
      (0 <= barWidth b /\ barWidth b <= 0.12 * logicalWidth cv).
Proof.
  intros sn cs cv now elapsed ph g U W H D b Hb. simpl in Hb.
  destruct (In_nth_error _ _ Hb) as [i Hi].
  assert (Hlt : (i < List.length
                       (fst (glitchBars ph (logicalWidth cv)
                               (logicalHeight cv) g)))%nat)
    by (apply nth_error_Some; congruence).
  rewrite (glitchBars_nth _ _ _ _ _ Hlt) in Hi. inversion Hi; subst b.
  assert (Wn := logicalWidth_nonneg cv W D).
  assert (Hn : 0 <= logicalHeight cv).
  { unfold logicalHeight. apply Qle_shift_div_l; [now apply orOne_pos | lra]. }
  unfold barOf. cbn [barX barY barWidth barHeight barAlpha].
  destruct (U (5 * i + 1)%nat) as [W0 W1].
  destruct (U (5 * i + 2)%nat) as [H0 H1].
  destruct (U (5 * i + 4)%nat) as [Y0 Y1].
  repeat split; nra.
Qed.

(** The theorem at the fourth bar of a frame of [scare]. *)
Lemma glitch_bars_size_witness :
  let b := barOf 0.48 (logicalWidth demoCanvas) (logicalHeight demoCanvas)
             tenths 3 in
  (0 <= barY b /\ barY b <= logicalHeight demoCanvas) /\
  (3 <= barHeight b /\ barHeight b < 6) /\
  barY b + barHeight b < logicalHeight demoCanvas + 6 /\
  (0 <= barWidth b /\ barWidth b <= 0.12 * logicalWidth demoCanvas).
Proof.
  apply (glitch_bars_size (fun _ => 0) (fun _ => 0) demoCanvas 25500 24500
           scare tenths tenths_unit).
  - discriminate.
  - discriminate.
  - discriminate.
  - vm_compute. do 3 right. left. reflexivity.
Defined.

(** X4.  Every [globalAlpha] a frame of a run sets (elapsed time not
    negative) is one the canvas accepts, between 0 and 1: the wall
    drawing's lies between 0.12 and 0.37, that of the eyes of the climax
    between 0.85 and 1. *)
Theorem global_alpha_valid :
  forall (sin cos : Q -> Q) (cv : Canvas) (now elapsed : Q) (ph : Phase) (g : Rng),
    0 <= elapsed ->
    let f := paint sin cos cv now elapsed ph g in
    (0.12 <= p_wallAlpha f /\ p_wallAlpha f <= 0.37) /\
    (forall a, p_climaxEyes f = Some a -> 0.85 <= a /\ a <= 1).
Proof.
  intros sn cs cv now elapsed ph g H f.
  destruct (progressOf_bounds elapsed H) as [P0 P1].
  split; [simpl; unfold wallAlpha; lra|].
  intros a E. destruct ph; simpl in E; inversion E; subst a;
    split; discriminate.
Qed.

(** The theorem at a frame of [aftermath]. *)
Lemma global_alpha_valid_witness :
  let f := paint (fun _ => 0) (fun _ => 0) demoCanvas 31001 30001 aftermath
             tenths in
  (0.12 <= p_wallAlpha f /\ p_wallAlpha f <= 0.37) /\
  (forall a, p_climaxEyes f = Some a -> 0.85 <= a /\ a <= 1).
Proof.
  apply (global_alpha_valid (fun _ => 0) (fun _ => 0) demoCanvas 31001 30001
           aftermath tenths).
  discriminate.
Defined.

(** ** The buffers of the audio director *)

(** *** The noise buffer *)









(** *** The distortion curve *)


Section Curve.

Variable amount : Q.
Hypothesis amount_nonneg : 0 <= amount.






End Curve.








(** ** The one-shot sounds *)

Lemma automate_after (events : list Automation) :
  forall t t0 v0,
    Forall (fun e => automationTime e <= t) events ->
    automate t t0 v0 events = Some (finalValue v0 events).
Proof.
  induction events as [|[v1 t1|v1 t1|v1 t1] rest IH]; intros t t0 v0 F;
    simpl; [reflexivity| | |];
    inversion F as [|? ? H F']; subst; simpl in H;
    (replace (Qltb t t1) with false by (symmetry; apply Qltb_false; exact H));
    apply IH, F'.
Qed.

Lemma automate_before (t t0 v0 v1 t1 : Q) (rest : list Automation) :
  t < t1 -> automate t t0 v0 (SetValueAtTime v1 t1 :: rest) = Some v0.
Proof.
  intro H. simpl.
  now replace (Qltb t t1) with true by (symmetry; apply Qltb_true; exact H).
Qed.

(** X7.  On a context whose clock reads [currentTime], every automated
    parameter of the graph has a schedule the Web Audio API plays as
    written: event times never go back and every exponential ramp runs
    between two positive values.  Every one-shot sound (the three creaks,
    the scare noise, the boom) starts with its envelope, after
    [currentTime]; its gain is 0 until then, 0.0001 at that instant and
    0.0001 again from the end of the envelope on, never aims above 0.95,
    and an oscillator is stopped only after its envelope has ended. *)
Theorem one_shots_silent_outside_envelope :
  forall currentTime : Q,
    let g := buildGraph currentTime in
    (forall p, In p (params g) ->
       param_setAt p = currentTime /\
       schedulable (param_setAt p) (param_value p) (param_events p)) /\
    (forall p src, In (p, src) (oneShots g) ->
       let cue := src_start src in
       currentTime < cue /\ cue < envelopeEnd p /\
       src_loop src = false /\
       Forall (fun v => 0 < v /\ v <= 0.95) (rampTargets p) /\
       (forall t, t < cue -> paramAt p t = Some 0) /\
       paramAt p cue = Some 0.0001 /\
       (forall t, envelopeEnd p <= t -> paramAt p t = Some 0.0001) /\
       (forall stopAt, src_stop src = Some stopAt -> envelopeEnd p < stopAt)).
Proof.
  intros c g. split.
  - intros p H. simpl in H.
    repeat (destruct H as [<-|H]; [split; [reflexivity|];
      simpl; repeat split; try lra; try reflexivity|]).
    contradiction.
  - intros p src H. simpl in H.
    repeat (destruct H as [H|H];
      [injection H as <- <-; cbv zeta;
       unfold envelopeEnd, paramAt; cbn [scheduleCreak creak_gain creak_osc
         src_start src_stop src_loop param_events param_setAt param_value
         fold_left automationTime rampTargets map];
       split; [lra|]; split; [lra|]; split; [reflexivity|];
       split; [repeat (apply Forall_cons; [split; [reflexivity|discriminate]|]);
               apply Forall_nil|];
       split; [intros t Ht; apply automate_before; exact Ht|];
       split; [|split;
         [intros t Ht; rewrite automate_after;
            [reflexivity|
             repeat (apply Forall_cons; [simpl; lra|]); apply Forall_nil]
         |intros stopAt E; try discriminate E; injection E as <-; lra]]|]).
    all: try contradiction.
    all: cbn [automate];
      match goal with
      | |- context [Qltb ?a ?a] =>
          replace (Qltb a a) with false by (symmetry; apply Qltb_false; lra);
          replace (Qle_bool a a) with true by (symmetry; apply Qle_bool_iff; lra)
      end;
      match goal with
      | |- context [Qltb ?a ?b] =>
          replace (Qltb a b) with true by (symmetry; apply Qltb_true; lra)
      end; reflexivity.
Qed.

(** ** The size of the canvas *)





(** ** Every state the component can reach *)















(** ** Unmounting *)




(** ** What the page shows *)


(** ** The progress on display when the frame loop ends *)

Lemma setIsComplete_trace (b : bool) (s : State) :
  trace (setIsComplete b s) = trace s.
Proof.
  unfold setIsComplete. destruct (negb _ && b); [|reflexivity].
  now rewrite clearTimeouts_eq.
Qed.

Lemma setIsComplete_true (s : State) :
  isComplete (view (setIsComplete true s)) = true.
Proof.
  unfold setIsComplete. destruct (negb _ && true); [|reflexivity].
  now rewrite clearTimeouts_eq.
Qed.

Lemma fire_trace (t : Timer) (s : State) :
  trace (fire t s) = Fired t (runKey (view s)) :: trace s.
Proof.
  unfold fire, runCallback. destruct (timer_cb t); [reflexivity|].
  now rewrite setIsComplete_trace.
Qed.

Lemma fire_stays_complete (t : Timer) (s : State) :
  isComplete (view s) = true -> isComplete (view (fire t s)) = true.
Proof.
  intro H. unfold fire, runCallback. destruct (timer_cb t); [exact H|].
  apply setIsComplete_true.
Qed.

Lemma advanceN_ended (n : nat) (now : Q) :
  forall s,
    (forall c, In (Completed c) (trace (advanceN n now s)) ->
               In (Completed c) (trace s)) /\
    (isComplete (view s) = true ->
     isComplete (view (advanceN n now s)) = true).
Proof.
  induction n as [|n IH]; intro s; simpl; [auto|].
  destruct (earliest (timers (win s))) as [t|]; [|auto].
  destruct (Qle_bool (timer_due t) now); [|auto].
  destruct (IH (fire t s)) as [A B]. split.
  - intros c H. apply A in H. rewrite fire_trace in H.
    destruct H as [H|H]; [discriminate H | exact H].
  - intro H. apply B, fire_stays_complete, H.
Qed.

Section Ending.

Variable T : Q.

(** The time of the last publication is the time [lastProgressUpdate]
    holds, and a frame loop that has ended, ended 30000 ms in or later, no
    more than 120 ms after the last publication. *)
Record Fresh (now : Q) (s : State) : Prop := mkFresh {
  fr_last :
    match pubs (trace s) with
    | [] => lastProgressUpdate (refs s) <= T
    | p :: _ => fst p = lastProgressUpdate (refs s)
    end;
  fr_ended :
    forall c, In (Completed c) (trace s) ->
      STORY_DURATION <= c - T /\ c <= now /\
      c - lastProgressUpdate (refs s) <= 120 /\
      isComplete (view s) = true
}.

Lemma advance_fresh (now now' : Q) (s : State) :
  now <= now' -> Fresh now s -> Fresh now' (advance now' s).
Proof.
  intros L [A B]. assert (Qt := advance_quiet now' s).
  destruct (advanceN_ended (List.length (timers (win s))) now' s) as [E C].
  fold (advance now' s) in E, C.
  constructor.
  - now rewrite (q_pubs _ _ Qt), (q_lastUpdate _ _ Qt).
  - intros c H. destruct (B c (E c H)) as (B1 & B2 & B3 & B4).
    rewrite (q_lastUpdate _ _ Qt). repeat split; try assumption; [lra | auto].
Qed.

Lemma draw_fresh (r : nat) (now now' : Q) (s : State) :
  now <= now' -> startTimeRef (refs s) = T ->
  Fresh now s -> Fresh now' (draw r now' s).
Proof.
  intros L St [A B]. rewrite draw_eq. cbv zeta. rewrite St.
  assert (F1 : Fresh now' (published now' s) /\
               now' - lastProgressUpdate (refs (published now' s)) <= 120).
  { unfold published.
    destruct (Qltb 120 (now' - lastProgressUpdate (refs s))) eqn:Th.
    - split; [|simpl; lra]. constructor; simpl; [reflexivity|].
      intros c [H|H]; [discriminate H|].
      destruct (B c H) as (B1 & B2 & B3 & B4).
      repeat split; try assumption; lra.
    - apply Qltb_false in Th. split; [|exact Th].
      constructor; [exact A|].
      intros c H. destruct (B c H) as (B1 & B2 & B3 & B4).
      repeat split; try assumption; lra. }
  destruct F1 as [[A1 B1] Th].
  set (s1 := published now' s) in *.
  destruct (Qltb (Qmin (now' - T) STORY_DURATION) STORY_DURATION) eqn:Cl.
  - constructor; simpl; assumption.
  - apply Qltb_false in Cl.
    assert (Hd : STORY_DURATION <= now' - T).
    { destruct (Q.min_spec (now' - T) STORY_DURATION) as [[X Y]|[X Y]];
        [rewrite Y in Cl; lra | exact X]. }
    assert (Qt := setIsComplete_quiet true s1).
    constructor; simpl.
    + rewrite setIsComplete_trace, (q_lastUpdate _ _ Qt). exact A1.
    + rewrite setIsComplete_trace, (q_lastUpdate _ _ Qt), setIsComplete_true.
      intros c [H|H].
      * inversion H; subst c. repeat split; try assumption; lra.
      * destruct (B1 c H) as (C1 & C2 & C3 & C4).
        repeat split; assumption.
Qed.

Lemma frames_fresh (now now' : Q) (fs : list FrameRequest) :
  now <= now' ->
  forall s,
    (fs <> [] -> startTimeRef (refs s) = T) ->
    Fresh now s ->
    exists now0, now0 <= now' /\
      Fresh now0 (fold_left (fun s f => draw (frame_run f) now' s) fs s).
Proof.
  intro L. revert now L.
  induction fs as [|f fs IH]; intros now L s St F; simpl.
  - exists now. auto.
  - assert (S0 : startTimeRef (refs s) = T) by (apply St; discriminate).
    apply (IH now'); [apply Qle_refl | | now apply (draw_fresh _ now)].
    intros _. rewrite draw_eq. cbv zeta.
    assert (S1 := sc_startTime _ _ (published_core now' s)).
    destruct (Qltb _ _); simpl; [congruence|].
    rewrite (q_startTime _ _ (setIsComplete_quiet true _)). congruence.
Qed.

Lemma later_fresh (now now' : Q) (s : State) :
  now <= now' -> Fresh now s -> Fresh now' s.
Proof.
  intros L [A B]. constructor; [exact A|].
  intros c H. destruct (B c H) as (B1 & B2 & B3 & B4).
  repeat split; try assumption; lra.
Qed.

Variables (r base : nat) (cvo : option Canvas).

Lemma step_fresh (now : Q) (s : State) (e : Event) :
  orderedb now [e] = true -> RunInv T r base cvo now s ->
  Fresh now s -> Fresh (event_time e) (step s e).
Proof.
  intros O I F. unfold step.
  destruct e as [t|t|t]; simpl in O; [discriminate| |];
    rewrite andb_true_r in O; apply Qle_bool_iff in O; simpl;
    assert (F1 := advance_fresh now t s O F);
    [|exact F1].
  assert (I1 := advance_inv T r base cvo now t s O I).
  unfold animationFrame.
  set (s1 := advance t s) in *.
  destruct (frames_fresh t t (frames (win s1)) (Qle_refl t)
              (with_win (set_frames []) s1)) as (t0 & L0 & F0).
  - intro N. simpl. apply (ri_start _ _ _ _ _ _ I1).
    rewrite <- (ri_canvas _ _ _ _ _ _ I1).
    destruct (ri_state _ _ _ _ _ _ I1) as [(k & _ & _ & _ & Fr)|(_ & _ & Fr)].
    + unfold framesRunning in Fr. rewrite <- (ri_canvas _ _ _ _ _ _ I1) in Fr.
      destruct (canvasEl s1); [discriminate | congruence].
    + destruct Fr as [Fr|[Nc _]]; [congruence|].
      now rewrite (ri_canvas _ _ _ _ _ _ I1).
  - destruct F1 as [A B]. constructor; assumption.
  - now apply (later_fresh t0).
Qed.

Lemma run_fresh (es : list Event) :
  forall now s,
    orderedb now es = true -> RunInv T r base cvo now s -> Fresh now s ->
    Fresh (lastTime now es) (run es s).
Proof.
  induction es as [|e es IH]; intros now s O I F; simpl; [exact F|].
  assert (O1 : orderedb now [e] = true /\ orderedb (event_time e) es = true).
  { destruct e; simpl in *; [discriminate| |];
      apply andb_true_iff in O; destruct O as [A B];
      rewrite A; auto. }
  destruct O1 as [O1 O2].
  apply IH; [exact O2 | now apply (step_inv T r base cvo now)
            | now apply (step_fresh now)].
Qed.

Lemma fresh_progress (now : Q) (s : State) (c : Q) :
  RunInv T r base cvo now s -> Fresh now s ->
  In (Completed c) (trace s) ->
  isComplete (view s) = true /\
  1 - 120 / STORY_DURATION <= progress (view s) /\ progress (view s) <= 1.
Proof.
  intros I [A B] H. destruct (B c H) as (B1 & B2 & B3 & B4).
  split; [exact B4|].
  destruct (ri_pubs _ _ _ _ _ _ I) as [E _ P]. rewrite P.
  destruct (pubs (trace s)) as [|p rest].
  - exfalso. unfold STORY_DURATION in B1. lra.
  - inversion E as [|? ? (E1 & E2 & E3 & E4) _]; subst. simpl. rewrite E4.
    assert (G : STORY_DURATION - 120 <= fst p - T) by (rewrite A; lra).
    assert (M := progressOf_monotone _ _ G).
    assert (N : 0 <= fst p - T) by lra.
    destruct (progressOf_bounds _ N) as [_ U].
    split; [|exact U].
    assert (V : progressOf (STORY_DURATION - 120) == 1 - 120 / STORY_DURATION)
      by reflexivity.
    rewrite <- V. exact M.
Qed.

End Ending.

(** X11.  Take a run begun at [T], in a state whose last publication of a
    progress value was no later than [T], and followed by frames and the
    passing of time in their order.  Once [draw] has ended the frame loop,
    the completion flag is set and the progress on display is at least
    [1 - 120/30000] (99.6 per cent) and at most 1: the throttle may drop
    the last publication, but none older than 120 ms. *)
Theorem progress_ends_nearly_full :
  forall (cv : option Canvas) (es : list Event) (T : Q) (es' : list Event)
         (c : Q),
    orderedb T es' = true ->
    lastProgressUpdate (refs (run es (mounted cv))) <= T ->
    let s := run es' (beginStory T (run es (mounted cv))) in
    In (Completed c) (trace s) ->
    isComplete (view s) = true /\
    1 - 120 / STORY_DURATION <= progress (view s) /\
    progress (view s) <= 1 /\
    (996 # 10) <= barPercent s.
Proof.
  intros cv es T es' c O Lp s H.
  set (s0 := run es (mounted cv)) in *.
  assert (W : wf s0) by apply wf_run, wf_mounted.
  assert (I := in_run cv es T es' O). cbv zeta in I. fold s0 in I. fold s in I.
  assert (F0 : Fresh T T (beginStory T s0)).
  { rewrite (beginStory_eq T s0 (wf_tracked s0 W) (wf_frames s0 W)).
    constructor; simpl; [exact Lp | intros ? []]. }
  assert (I0 := begin_inv T s0 W).
  assert (F := run_fresh T _ _ _ es' T _ O I0 F0). fold s in F.
  destruct (fresh_progress T _ _ _ _ s c I F H) as (A & B & C).
  split; [exact A|]. split; [exact B|]. split; [exact C|].
  unfold barPercent.
  assert (V : 1 - 120 / STORY_DURATION == 996 # 1000) by reflexivity.
  rewrite V in B.
  apply Q.min_glb; lra.
Qed.

(** The theorem on a run whose last frames come 29950 ms and 30010 ms in:
    the loop ends on a progress that stays below 1. *)
Lemma progress_ends_nearly_full_witness :
  let s := run [AnimationFrame 30950; AnimationFrame 31010]
             (beginStory 1000 (run [] (mounted (Some demoCanvas)))) in
  progress (view s) < 1 /\
  isComplete (view s) = true /\
  1 - 120 / STORY_DURATION <= progress (view s) /\
  progress (view s) <= 1 /\
  (996 # 10) <= barPercent s.
Proof.
  split; [vm_compute; reflexivity|].
  apply (progress_ends_nearly_full (Some demoCanvas) [] 1000
           [AnimationFrame 30950; AnimationFrame 31010] 31010);
    [ vm_compute; reflexivity
    | vm_compute; discriminate
    | vm_compute; left; reflexivity ].
Defined.
